(** * tako: the lexer (src/lex.cc) and the front of the driver (src/compile.cc)

    A shallow embedding of the lexer of the tako compiler and of [getTree],
    with the properties of its token stream.

    Conventions of the embedding:
    - a [std::string] is a list of bytes ([list ascii]); [content[i]] is
      [at_ content i], and [content.substr(pos)] is [skipn pos content];
    - [Offset] and [Position] (declared in a header that is not part of the
      sources at hand) are unsigned offsets into the text; they are modelled
      by [nat], for texts shorter than the range of the machine type;
    - the message log of a [Context] is a list, extended at its end;
    - a C++ loop is a recursive function over an iteration bound. *)

From Stdlib Require Import Ascii String List Arith Lia Bool Sorted.
Import ListNotations.

(** ** Byte strings *)

Definition bytes := list ascii.

Definition str (x : string) : bytes := list_ascii_of_string x.

(** [content[i]]; reading at [content.size()] yields the terminating NUL. *)
Definition at_ (content : bytes) (i : nat) : ascii := nth i content zero.

(** [chars.find(c) != std::string::npos] *)
Definition find (chars : bytes) (c : ascii) : bool :=
  existsb (Ascii.eqb c) chars.

Fixpoint bytes_eqb (a b : bytes) : bool :=
  match a, b with
  | [], [] => true
  | x :: a', y :: b' => Ascii.eqb x y && bytes_eqb a' b'
  | _, _ => false
  end.

(** [content.substr(0, n)] *)
Definition substr0 (content : bytes) (n : nat) : bytes := firstn n content.

(** [content.substr(start, n)] *)
Definition substr (content : bytes) (start n : nat) : bytes :=
  firstn n (skipn start content).

Definition tab : ascii := "009"%char.
Definition nl : ascii := "010"%char.
Definition cr : ascii := "013"%char.
Definition dquote : ascii := "034"%char.
Definition bslash : ascii := "092"%char.

(** ** Character classes (lex.cc, lines 8-16) *)

Definition lower : bytes := str "abcdefghijklmnopqrstuvwxyz".
Definition upper : bytes := str "ABCDEFGHIJKLMNOPQRSTUVWXYZ".
Definition nums : bytes := str "0123456789".

Definition whiteSpace : bytes := [" "%char; tab; nl; cr].
Definition numberChar : bytes := str "." ++ nums.

(** The operator characters.  The source writes some of them as UTF-8
    sequences; [find] works on single bytes, so each byte of a sequence is a
    member of the class on its own. *)
Definition operatorChar : bytes :=
  str "-+&#@<>^~"
  ++ ["226"%char; "136"%char; "134"%char]        (* U+2206 *)
  ++ str "%"
  ++ ["226"%char; "128"%char; "162"%char]        (* U+2022 *)
  ++ str "|="
  ++ ["195"%char; "183"%char]                    (* U+00F7 *)
  ++ ["195"%char; "151"%char]                    (* U+00D7 *)
  ++ ["194"%char; "176"%char]                    (* U+00B0 *)
  ++ str "$" ++ [bslash] ++ str "/*:?!.".

Definition symbolChar : bytes := lower ++ upper ++ nums ++ str "_".
Definition quotes : bytes := ["'"%char; dquote; "`"%char].

(** ** Tokens, locations, messages *)

(** Modelled from the spec: the enumeration [TokenType] that lex.cc uses is
    declared in lex.h, which is not among the sources (parser/ast.h holds an
    older enumeration without [StringLiteral]).  The kinds are those of the
    closed enumeration of the specification, which are the ones lex.cc
    produces. *)
Module TokenType.
Inductive t : Set :=
| OpenParen | CloseParen | OpenBrace | CloseBrace
| OpenBracket | CloseBracket | SemiColon | PreCond | PostCond | Comma
| WhiteSpace | NumberLiteral | StringLiteral | Operator | Symbol | Error.

Definition eqb (a b : t) : bool :=
  match a, b with
  | OpenParen, OpenParen | CloseParen, CloseParen
  | OpenBrace, OpenBrace | CloseBrace, CloseBrace
  | OpenBracket, OpenBracket | CloseBracket, CloseBracket
  | SemiColon, SemiColon | PreCond, PreCond | PostCond, PostCond
  | Comma, Comma | WhiteSpace, WhiteSpace | NumberLiteral, NumberLiteral
  | StringLiteral, StringLiteral | Operator, Operator | Symbol, Symbol
  | Error, Error => true
  | _, _ => false
  end.

Definition isError (a : t) : bool := eqb a Error.
End TokenType.

(** Modelled from the spec: severities of a message (the declaration is not
    among the sources). *)
Module MessageType.
Inductive t : Set := Info | Warning | Error | InternalError.

(** The severities that block the pipeline. *)
Definition fatal (a : t) : bool :=
  match a with Error | InternalError => true | _ => false end.
End MessageType.

(** Modelled from the spec: the pipeline stages, [Init < Lex < Parse < Check
    < Final]. *)
Module PassStep.
Inductive t : Set := Init | Lex | Parse | Check | Final.
End PassStep.

Module Location.
Record t : Set := mk { start : nat; length : nat; file : string }.
End Location.

Module Token.
Record t : Set := mk { type : TokenType.t; loc : Location.t }.
End Token.

Definition Tokens := list Token.t.

Module Message.
Record t : Set := mk { loc : Location.t; type : MessageType.t; msg : string }.
End Message.

Definition Messages := list Message.t.

(** ** The pass context *)

(** Modelled from the spec: the class [Context] is declared and defined
    outside the sources at hand.  It owns the message log, the source text,
    the file name and the current pass step; [msg] appends to the log,
    [done] holds iff the log has a message of severity [Error] or
    [InternalError], and [startStep] records the stage that is entered. *)
Module Context.
Record t : Set := mk {
  msgs : Messages;
  content : bytes;
  filename : string;
  step : PassStep.t
}.

Definition msg (ctx : t) (loc : Location.t) (ty : MessageType.t)
    (text : string) : t :=
  mk (msgs ctx ++ [Message.mk loc ty text]) (content ctx) (filename ctx)
     (step ctx).

Definition done (ctx : t) : bool :=
  existsb (fun m => MessageType.fatal (Message.type m)) (msgs ctx).

Definition startStep (ctx : t) (s : PassStep.t) : t :=
  mk (msgs ctx) (content ctx) (filename ctx) s.

(** The context the tests build: [Context ctx = {msgs, text, name}]. *)
Definition init (text : bytes) (name : string) : t :=
  mk [] text name PassStep.Init.
End Context.

(** ** Loops over the text *)

(** [for (; loc < size; loc++) { if (stop loc) break; }], the value of [loc]
    when the loop is left.  [n] bounds the number of iterations. *)
Fixpoint scan_n (stop : nat -> bool) (size n loc : nat) : nat :=
  match n with
  | 0 => loc
  | S n' =>
      if (loc <? size) && negb (stop loc)
      then scan_n stop size n' (S loc)
      else loc
  end.

(** The loop needs at most [size - loc] iterations. *)
Definition scan (stop : nat -> bool) (size loc : nat) : nat :=
  scan_n stop size (size - loc) loc.

(** ** The lexer (lex.cc) *)

(** lex.cc, lines 18-32 *)
Definition matchToken : list (bytes * TokenType.t) :=
  [ (str "(", TokenType.OpenParen);
    (str ")", TokenType.CloseParen);
    (str "{", TokenType.OpenBrace);
    (str "}", TokenType.CloseBrace);
    (str "[", TokenType.OpenBracket);
    (str "]", TokenType.CloseBracket);
    (str ";", TokenType.SemiColon);
    (str "-|", TokenType.PreCond);
    (str "|-", TokenType.PostCond);
    (str ",", TokenType.Comma) ].

(** lex.cc, lines 34-49 *)
Definition consumeStringLiteral (content : bytes) : nat :=
  let len := 0 in
  let start := at_ content len in
  if find quotes start then
    let len := S len in
    (* while (len < content.size() && content[len] != start) len++; *)
    let len :=
      scan (fun i => Ascii.eqb (at_ content i) start) (length content) len in
    if len <? length content
    then S len            (* consume the end *)
    else len              (* unterminated: nothing is reported *)
  else len.

(** lex.cc, lines 51-73.  The outer loop takes its [continue] on white space
    and leaves at the first other byte, after the comment that starts there,
    if one does. *)
Definition consumeWhiteSpace (content : bytes) : nat :=
  let size := length content in
  let loc := scan (fun i => negb (find whiteSpace (at_ content i))) size 0 in
  if loc <? size then
    let cur := at_ content loc in
    let loc :=
      if Ascii.eqb cur "/" && (loc + 1 <? size)
         && Ascii.eqb (at_ content (loc + 1)) "*"
      then
        let loc := S loc in
        let loc :=
          scan (fun i => Ascii.eqb (at_ content i) "/"
                         && Ascii.eqb (at_ content (i - 1)) "*")
               size (S loc) in
        S loc
      else loc in
    let loc :=
      if (Ascii.eqb cur "/" && (loc + 1 <? size)
          && Ascii.eqb (at_ content (loc + 1)) "/")
         || Ascii.eqb cur "#"
      then scan (fun i => Ascii.eqb (at_ content i) nl) size (S loc)
      else loc in
    loc
  else loc.

(** lex.cc, lines 75-84 *)
Definition matchesFrom (chars content : bytes) : nat :=
  scan (fun i => negb (find chars (at_ content i))) (length content) 0.

(** The loop over [matchToken] at the head of [chooseTok]. *)
Fixpoint matchTable (table : list (bytes * TokenType.t)) (content : bytes)
    : option (TokenType.t * nat) :=
  match table with
  | [] => None
  | (tokS, ty) :: table' =>
      if bytes_eqb (substr0 content (length tokS)) tokS
      then Some (ty, length tokS)
      else matchTable table' content
  end.

(** lex.cc, lines 86-110 *)
Definition chooseTok (content : bytes) : TokenType.t * nat :=
  match matchTable matchToken content with
  | Some r => r
  | None =>
      let length := consumeStringLiteral content in
      if negb (length =? 0) then (TokenType.StringLiteral, length) else
      let length := consumeWhiteSpace content in
      if negb (length =? 0) then (TokenType.WhiteSpace, length) else
      let length := matchesFrom operatorChar content in
      if negb (length =? 0) then (TokenType.Operator, length) else
      let length := matchesFrom numberChar content in
      if negb (length =? 0) then (TokenType.NumberLiteral, length) else
      let length := matchesFrom symbolChar content in
      if negb (length =? 0) then (TokenType.Symbol, length) else
      (TokenType.Error, 1)
  end.

(** The state of the loop of [lex]: the scan position, the tokens so far and
    the context. *)
Record LexState : Set := mkLex {
  pos : nat;
  toks : Tokens;
  ctx : Context.t
}.

(** lex.cc, lines 118-137: one iteration of the loop of [lex]. *)
Definition lex_body (st : LexState) : LexState :=
  let c := ctx st in
  let next := chooseTok (skipn (pos st) (Context.content c)) in
  let type := fst next in
  let length := snd next in
  let loc := Location.mk (pos st) length (Context.filename c) in
  if length =? 0 then
    mkLex (pos st + length) (toks st)
          (Context.msg c loc MessageType.InternalError "Illegal empty token")
  else if TokenType.isError type then
    mkLex (pos st + length) (toks st)
          (Context.msg c loc MessageType.Error "Unexpected character")
  else
    mkLex (pos st + length) (toks st ++ [Token.mk type loc]) c.

(** lex.cc, lines 117-139: [while (pos < ctx.content.size()) body].  The
    result is [None] when [n] iterations do not leave the loop. *)
Fixpoint lex_loop (n : nat) (st : LexState) : option (Tokens * Context.t) :=
  if pos st <? length (Context.content (ctx st)) then
    match n with
    | 0 => None
    | S n' => lex_loop n' (lex_body st)
    end
  else Some (toks st, ctx st).

(** lex.cc, lines 112-140, with the iteration bound as a parameter. *)
Definition lex_n (n : nat) (ctx : Context.t) : option (Tokens * Context.t) :=
  lex_loop n (mkLex 0 [] (Context.startStep ctx PassStep.Lex)).

(** [lex]: one iteration for each byte of the text is enough, since every
    iteration moves the position forward by one byte at least. *)
Definition lex (ctx : Context.t) : option (Tokens * Context.t) :=
  lex_n (length (Context.content ctx)) ctx.

(** ** The driver: [getTree] (compile.cc) *)

(** What [getTree] writes to [std::cerr]; the rendering ([show]) is outside
    the sources at hand and is kept abstract. *)
Inductive Output (Tree : Type) : Type :=
| OutLexed (n : nat)
| OutTokens (toks : Tokens)
| OutTree (tree : Tree).

Arguments OutLexed {Tree} n.
Arguments OutTokens {Tree} toks.
Arguments OutTree {Tree} tree.

Section GetTree.
(** The tree builder [ast::ast(toks, ctx, ast::parseModule)] is not among
    the sources: it is a parameter, free to change the context. *)
Variable Tree : Type.
Variable ast : Tokens -> Context.t -> option Tree * Context.t.

(** compile.cc, lines 7-24.  The result is the optional tree, the context
    and the error stream afterwards.  There is no result, [None], when the
    lexer does not return, and when [done()] holds after the tree builder
    and the tree builder returned no tree: line 21 dereferences the optional
    without a test, which is undefined for an empty one. *)
Definition getTree (ctx : Context.t) (cerr : list (Output Tree))
    : option (option Tree * Context.t * list (Output Tree)) :=
  if Context.done ctx then Some (None, ctx, cerr)
  else
    match lex ctx with
    | None => None
    | Some (toks, ctx) =>
        if Context.done ctx then
          Some (None, ctx,
                cerr ++ [OutLexed (length toks); OutTokens toks])
        else
          let (tree, ctx) := ast toks ctx in
          if Context.done ctx then
            match tree with
            | Some t => Some (tree, ctx, cerr ++ [OutTree t])
            | None => None
            end
          else Some (tree, ctx, cerr)
    end.
End GetTree.

Arguments getTree {Tree} ast ctx cerr.

(** ** Running the lexer on the texts of the tests *)

Definition tok (ty : TokenType.t) (start len : nat) : Token.t :=
  Token.mk ty (Location.mk start len "<filename>").

Definition lexText (text : bytes) : option (Tokens * Messages) :=
  match lex (Context.init text "<filename>") with
  | Some (toks, ctx) => Some (toks, Context.msgs ctx)
  | None => None
  end.

(** ** What the lexer scans: spans *)

(** A span is what one iteration of [lex] chooses: a kind and a location.
    Spans of kind [Error] are reported, the others become tokens. *)
Definition spanStart (t : Token.t) : nat := Location.start (Token.loc t).
Definition spanLength (t : Token.t) : nat := Location.length (Token.loc t).
Definition spanEnd (t : Token.t) : nat := spanStart t + spanLength t.

Definition isErrorTok (t : Token.t) : bool := TokenType.isError (Token.type t).
Definition isToken (t : Token.t) : bool := negb (isErrorTok t).

(** [getString]: the slice of the text a location names. *)
Definition getString (content : bytes) (t : Token.t) : bytes :=
  substr content (spanStart t) (spanLength t).

(** The message [lex] logs for a span of kind [Error]. *)
Definition unexpected (t : Token.t) : Message.t :=
  Message.mk (Token.loc t) MessageType.Error "Unexpected character".

(** [Chain p l e]: the spans of [l] follow each other from offset [p] to
    offset [e], each starting where the previous one ends. *)
Inductive Chain : nat -> list Token.t -> nat -> Prop :=
| Chain_nil : forall p, Chain p [] p
| Chain_cons : forall p t l e,
    spanStart t = p -> Chain (p + spanLength t) l e -> Chain p (t :: l) e.

(** [chosen content file t]: [t] is the span an iteration of [lex] makes at
    offset [spanStart t] of [content]. *)
Definition chosen (content : bytes) (file : string) (t : Token.t) : Prop :=
  spanStart t < length content
  /\ Location.file (Token.loc t) = file
  /\ chooseTok (skipn (spanStart t) content) = (Token.type t, spanLength t).

(** The token [b] starts behind [a], at or after the end of [a]. *)
Definition follows (a b : Token.t) : Prop :=
  spanStart a < spanStart b /\ spanEnd a <= spanStart b.

Definition inBounds (content : bytes) (t : Token.t) : bool :=
  spanEnd t <=? length content.

(** All tokens [lex] returns for [ctx] lie within the text. *)
Definition tokensInBounds (ctx : Context.t) : bool :=
  match lex ctx with
  | Some (toks, _) => forallb (inBounds (Context.content ctx)) toks
  | None => false
  end.

(** No rule of [chooseTok] applies at the head of [content]. *)
Definition noRuleMatches (content : bytes) : bool :=
  match matchTable matchToken content with
  | Some _ => false
  | None =>
      (consumeStringLiteral content =? 0)
      && (consumeWhiteSpace content =? 0)
      && (matchesFrom operatorChar content =? 0)
      && (matchesFrom numberChar content =? 0)
      && (matchesFrom symbolChar content =? 0)
  end.

(** The rules of [chooseTok], in their order. *)
Inductive Choice (content : bytes) : TokenType.t -> nat -> Prop :=
| ChTable : forall ty n,
    matchTable matchToken content = Some (ty, n) -> Choice content ty n
| ChString :
    matchTable matchToken content = None ->
    consumeStringLiteral content <> 0 ->
    Choice content TokenType.StringLiteral (consumeStringLiteral content)
| ChWhiteSpace :
    matchTable matchToken content = None ->
    consumeStringLiteral content = 0 ->
    consumeWhiteSpace content <> 0 ->
    Choice content TokenType.WhiteSpace (consumeWhiteSpace content)
| ChOperator :
    matchTable matchToken content = None ->
    consumeStringLiteral content = 0 ->
    consumeWhiteSpace content = 0 ->
    matchesFrom operatorChar content <> 0 ->
    Choice content TokenType.Operator (matchesFrom operatorChar content)
| ChNumber :
    matchTable matchToken content = None ->
    consumeStringLiteral content = 0 ->
    consumeWhiteSpace content = 0 ->
    matchesFrom operatorChar content = 0 ->
    matchesFrom numberChar content <> 0 ->
    Choice content TokenType.NumberLiteral (matchesFrom numberChar content)
| ChSymbol :
    matchTable matchToken content = None ->
    consumeStringLiteral content = 0 ->
    consumeWhiteSpace content = 0 ->
    matchesFrom operatorChar content = 0 ->
    matchesFrom numberChar content = 0 ->
    matchesFrom symbolChar content <> 0 ->
    Choice content TokenType.Symbol (matchesFrom symbolChar content)
| ChError :
    noRuleMatches content = true ->
    Choice content TokenType.Error 1.

(** The context with the messages [new] appended to its log. *)
Definition addMsgs (c : Context.t) (new : Messages) : Context.t :=
  Context.mk (Context.msgs c ++ new) (Context.content c) (Context.filename c)
             (Context.step c).

(** The span the iteration of [lex] in state [st] chooses. *)
Definition nextSpan (st : LexState) : Token.t :=
  let next := chooseTok (skipn (pos st) (Context.content (ctx st))) in
  Token.mk (fst next)
           (Location.mk (pos st) (snd next) (Context.filename (ctx st))).

(** A byte that is in none of the classes of the lexer. *)
Definition one : ascii := "001"%char.

(** A context whose log holds an error before the pipeline starts. *)
Definition blockedContext : Context.t :=
  Context.mk
    [Message.mk (Location.mk 0 0 "<filename>") MessageType.Error "earlier error"]
    (str "12") "<filename>" PassStep.Init.

(** A tree builder for the examples: it yields a leaf and logs nothing. *)
Definition leafAst (toks : Tokens) (c : Context.t) : option unit * Context.t :=
  (Some tt, Context.startStep c PassStep.Parse).

(** A tree builder for the examples: it yields a leaf and logs an error. *)
Definition errAst (toks : Tokens) (c : Context.t) : option unit * Context.t :=
  (Some tt,
   Context.msg (Context.startStep c PassStep.Parse)
               (Location.mk 0 0 (Context.filename c)) MessageType.Error
               "no closing bracket").

(** The first bytes of the entries of [matchToken]. *)
Definition tokenStart : bytes := str "(){}[];-|,".

(** The first byte of [rest], if there is one, satisfies [p]. *)
Definition headIs (p : ascii -> bool) (rest : bytes) : bool :=
  match rest with
  | [] => false
  | c :: _ => p c
  end.

(** ** White space and comments, as texts *)

(** The two bytes that end a block comment occur in [prev :: body]. *)
Fixpoint hasClose (prev : ascii) (body : bytes) : bool :=
  match body with
  | [] => false
  | c :: body' => (Ascii.eqb prev "*" && Ascii.eqb c "/") || hasClose c body'
  end.

(** [rest] starts with the opening of a comment. *)
Definition opensComment (rest : bytes) : bool :=
  match rest with
  | "#"%char :: _ => true
  | "/"%char :: "*"%char :: _ => true
  | "/"%char :: "/"%char :: _ => true
  | _ => false
  end.

(** [text] starts with the opening of a block comment. *)
Definition opensBlock (text : bytes) : bool :=
  match text with
  | c :: d :: _ => Ascii.eqb c "/" && Ascii.eqb d "*"
  | _ => false
  end.

(** [staleSlash comment rest]: [comment] is a block comment and the second
    byte of [rest], the text behind it, is a slash.  This is where the test
    for a line comment (lex.cc, line 65), made behind the block comment with
    the byte that opened it, succeeds. *)
Definition staleSlash (comment rest : bytes) : bool :=
  opensBlock comment && headIs (Ascii.eqb "/") (tl rest).

(** [Comment text rest]: [text], followed by [rest], is at most one comment,
    in full:
    - no comment, before a text that starts with neither white space nor a
      comment;
    - a line comment, from a sharp sign or from two slashes, up to the
      newline that ends it, or up to the end of the text;
    - a closed block comment, from its opening up to the first slash that
      comes directly after a star, the star of the opening included: the
      body holds no such slash, and the shortest block comment is of three
      bytes. *)
Inductive Comment : bytes -> bytes -> Prop :=
| NoComment : forall rest,
    headIs (find whiteSpace) rest = false ->
    opensComment rest = false ->
    Comment [] rest
| HashComment : forall body rest,
    find body nl = false ->
    (rest = [] \/ headIs (Ascii.eqb nl) rest = true) ->
    Comment (str "#" ++ body) rest
| SlashComment : forall body rest,
    find body nl = false ->
    (rest = [] \/ headIs (Ascii.eqb nl) rest = true) ->
    Comment (str "//" ++ body) rest
| BlockComment : forall body rest,
    hasClose "*" body = false ->
    Comment (str "/*" ++ body ++ str "*/") rest
| ShortBlockComment : forall rest,
    Comment (str "/*/") rest.

(** The body of the outer loop of [consumeWhiteSpace] at a byte [cur] that
    is not white space (lex.cc, lines 58-70), in its two steps, as functions
    of the offset [loc]: the block comment, then the line comment. *)
Definition blockComment (content : bytes) (cur : ascii) (loc : nat) : nat :=
  if Ascii.eqb cur "/" && (loc + 1 <? length content)
     && Ascii.eqb (at_ content (loc + 1)) "*"
  then
    let loc := S loc in
    let loc :=
      scan (fun i => Ascii.eqb (at_ content i) "/"
                     && Ascii.eqb (at_ content (i - 1)) "*")
           (length content) (S loc) in
    S loc
  else loc.

Definition lineComment (content : bytes) (cur : ascii) (loc : nat) : nat :=
  if (Ascii.eqb cur "/" && (loc + 1 <? length content)
      && Ascii.eqb (at_ content (loc + 1)) "/")
     || Ascii.eqb cur "#"
  then scan (fun i => Ascii.eqb (at_ content i) nl) (length content) (S loc)
  else loc.

Definition consumeComment (content : bytes) (loc : nat) : nat :=
  let cur := at_ content loc in
  lineComment content cur (blockComment content cur loc).

(** A byte that starts no token: it is in none of the classes of the
    lexer. *)
Definition unmatchedByte (c : ascii) : bool :=
  negb (find tokenStart c) && negb (find quotes c)
  && negb (find whiteSpace c) && negb (find operatorChar c)
  && negb (find numberChar c) && negb (find symbolChar c).

(** Every opening of a block comment in the text, wherever it stands, is
    followed by an end of a block comment. *)
Fixpoint blocksClosed (content : bytes) : bool :=
  match content with
  | [] => true
  | c :: rest =>
      (negb (Ascii.eqb c "/" && headIs (Ascii.eqb "*") rest)
       || hasClose "*" (tl rest))
      && blocksClosed rest
  end.


(** ** The output path of a target (main.cc) *)

(** [s.find(c)]: the offset of the first [c] in [s]; [None] stands for
    [std::string::npos], which is larger than the size of every string. *)
Fixpoint findChar (c : ascii) (s : bytes) : option nat :=
  match s with
  | [] => None
  | x :: s' => if Ascii.eqb x c then Some 0 else option_map S (findChar c s')
  end.

(** [s.replace(pos, len, str)]: the bytes from [pos], [len] of them at most,
    give way to [str].  The call throws [std::out_of_range], here [None],
    when [pos] is larger than the size of [s]. *)
Definition string_replace (s : bytes) (pos : option nat) (len : nat)
    (str' : bytes) : option bytes :=
  match pos with
  | None => None
  | Some p =>
      if p <=? length s
      then Some (firstn p s ++ str' ++ skipn (p + len) s)
      else None
  end.

(** main.cc, lines 81-82: the output path of the target [filename], from
    the template [out]. *)
Definition thisOut (out filename : bytes) : option bytes :=
  string_replace out (findChar "%" out) 1 filename.

(** ** Spans of a part of the text *)

(** The span [t], moved [k] bytes to the right. *)
Definition shiftTok (k : nat) (t : Token.t) : Token.t :=
  Token.mk (Token.type t)
           (Location.mk (k + spanStart t) (spanLength t)
                        (Location.file (Token.loc t))).

(** The bytes that start a symbol. *)
Definition symbolStart : bytes := lower ++ upper ++ str "_".

(** A byte of plain text: white space or printable ASCII. *)
Definition plainByte (c : ascii) : bool :=
  find whiteSpace c
  || ((32 <=? nat_of_ascii c) && (nat_of_ascii c <=? 126)).

(** The message [m], with its location moved [k] bytes to the right. *)
Definition shiftMsg (k : nat) (m : Message.t) : Message.t :=
  Message.mk
    (Location.mk (k + Location.start (Message.loc m))
                 (Location.length (Message.loc m))
                 (Location.file (Message.loc m)))
    (Message.type m) (Message.msg m).
(** ** The lexer on the texts of the tests *)

Example lex_empty : lexText [] = Some ([], []).
Proof. reflexivity. Qed.

Example lex_space : lexText (str " ") = Some ([tok TokenType.WhiteSpace 0 1], []).
Proof. reflexivity. Qed.

Example lex_number : lexText (str "12") = Some ([tok TokenType.NumberLiteral 0 2], []).
Proof. reflexivity. Qed.

Example lex_string : lexText (str "'123abc!'") = Some ([tok TokenType.StringLiteral 0 9], []).
Proof. reflexivity. Qed.

Example lex_multiline_string :
  lexText (dquote :: str "123" ++ [nl] ++ str "abc!" ++ [dquote])
  = Some ([tok TokenType.StringLiteral 0 10], []).
Proof. reflexivity. Qed.

Example lex_expression :
  lexText (str "var * 32")
  = Some ([tok TokenType.Symbol 0 3; tok TokenType.WhiteSpace 3 1;
           tok TokenType.Operator 4 1; tok TokenType.WhiteSpace 5 1;
           tok TokenType.NumberLiteral 6 2], []).
Proof. reflexivity. Qed.

(** ** Properties of the loops *)

Section Scan.
Variable stop : nat -> bool.
Variable size : nat.

Lemma scan_n_ge : forall n loc, loc <= scan_n stop size n loc.
Proof.
  induction n as [|n IH]; intros loc; simpl; [lia|].
  destruct ((loc <? size) && negb (stop loc)); [|lia].
  specialize (IH (S loc)); lia.
Qed.

Lemma scan_n_le : forall n loc, loc <= size -> scan_n stop size n loc <= size.
Proof.
  induction n as [|n IH]; intros loc Hle; simpl; [lia|].
  destruct (loc <? size) eqn:Hlt; simpl; [|lia].
  destruct (stop loc); simpl; [lia|].
  apply IH. apply Nat.ltb_lt in Hlt. lia.
Qed.

Lemma scan_n_stop : forall n loc,
  size - loc <= n ->
  scan_n stop size n loc < size -> stop (scan_n stop size n loc) = true.
Proof.
  induction n as [|n IH]; intros loc Hn; simpl.
  - lia.
  - destruct (loc <? size) eqn:Hlt; simpl.
    + destruct (stop loc) eqn:Hs; simpl; [auto|].
      apply IH. lia.
    + apply Nat.ltb_ge in Hlt. lia.
Qed.

Lemma scan_n_before : forall n loc i,
  loc <= i < scan_n stop size n loc -> stop i = false /\ i < size.
Proof.
  induction n as [|n IH]; intros loc i; simpl; [lia|].
  destruct (loc <? size) eqn:Hlt; simpl; [|lia].
  destruct (stop loc) eqn:Hs; simpl; [lia|].
  intros Hi. destruct (Nat.eq_dec i loc) as [->|Hne].
  - apply Nat.ltb_lt in Hlt. auto.
  - apply (IH (S loc)). lia.
Qed.

Lemma scan_ge loc : loc <= scan stop size loc.
Proof. apply scan_n_ge. Qed.

Lemma scan_le loc : loc <= size -> scan stop size loc <= size.
Proof. apply scan_n_le. Qed.

Lemma scan_stop loc :
  scan stop size loc < size -> stop (scan stop size loc) = true.
Proof. apply scan_n_stop. lia. Qed.

Lemma scan_before loc i :
  loc <= i < scan stop size loc -> stop i = false /\ i < size.
Proof. apply scan_n_before. Qed.

(** The loop stops at the first offset that is the end or satisfies
    [stop]. *)
Lemma scan_first loc r :
  loc <= r <= size ->
  (forall i, loc <= i < r -> stop i = false) ->
  (r < size -> stop r = true) ->
  scan stop size loc = r.
Proof.
  intros Hr Hbefore Hat.
  pose proof (scan_ge loc) as Hge.
  pose proof (scan_le loc ltac:(lia)) as Hle.
  destruct (Nat.lt_trichotomy (scan stop size loc) r) as [Hlt|[Heq|Hgt]].
  - pose proof (scan_stop loc ltac:(lia)) as Hs.
    rewrite Hbefore in Hs by lia. discriminate.
  - exact Heq.
  - destruct (scan_before loc r ltac:(lia)) as [Hs Hlt].
    rewrite Hat in Hs by lia. discriminate.
Qed.

Lemma scan_here loc : loc < size -> stop loc = true -> scan stop size loc = loc.
Proof. intros. apply scan_first; auto; intros; lia. Qed.

Lemma scan_end loc : size <= loc -> scan stop size loc = loc.
Proof.
  intros H. unfold scan. replace (size - loc) with 0 by lia. reflexivity.
Qed.
End Scan.

(** ** Properties of byte strings *)

Lemma at_app_l (a b : bytes) i : i < length a -> at_ (a ++ b) i = at_ a i.
Proof. intros. unfold at_. now apply app_nth1. Qed.

Lemma at_app_r (a b : bytes) i : at_ (a ++ b) (length a + i) = at_ b i.
Proof.
  unfold at_. rewrite app_nth2 by lia. f_equal. lia.
Qed.

Lemma at_skipn (content : bytes) p i : at_ (skipn p content) i = at_ content (p + i).
Proof.
  unfold at_. revert content. induction p as [|p IH]; intros content; simpl.
  - reflexivity.
  - destruct content as [|c content]; simpl; [now destruct i | apply IH].
Qed.

Lemma bytes_eqb_eq a b : bytes_eqb a b = true <-> a = b.
Proof.
  revert b. induction a as [|x a IH]; intros [|y b]; simpl; split;
    try congruence; try discriminate.
  - intros H. apply andb_true_iff in H as [Hx Ha].
    apply Ascii.eqb_eq in Hx. apply IH in Ha. congruence.
  - intros H. injection H as -> ->. rewrite Ascii.eqb_refl. now apply IH.
Qed.

Lemma find_In chars c : find chars c = true <-> In c chars.
Proof.
  unfold find. rewrite existsb_exists. split.
  - intros (x & Hin & Heq). apply Ascii.eqb_eq in Heq. now subst.
  - intros Hin. exists c. split; [exact Hin | apply Ascii.eqb_refl].
Qed.

(** ** Properties of [chooseTok] *)

Lemma matchTable_Some table content ty n :
  matchTable table content = Some (ty, n) ->
  exists tokS, In (tokS, ty) table /\ n = length tokS /\ firstn n content = tokS.
Proof.
  induction table as [|[tokS ty'] table IH]; simpl; [discriminate|].
  destruct (bytes_eqb (substr0 content (length tokS)) tokS) eqn:Heq.
  - intros H. injection H as -> <-. exists tokS.
    apply bytes_eqb_eq in Heq. auto.
  - intros H. destruct (IH H) as (t & Hin & Hn & Hf). exists t. auto.
Qed.

Lemma matchToken_Some content ty n :
  matchTable matchToken content = Some (ty, n) ->
  1 <= n <= length content /\ TokenType.isError ty = false.
Proof.
  intros H. apply matchTable_Some in H as (tokS & Hin & -> & Hf).
  assert (Hlen : length tokS <= length content).
  { apply (f_equal (@length ascii)) in Hf. rewrite length_firstn in Hf. lia. }
  split.
  - split; [|exact Hlen].
    simpl in Hin.
    repeat (destruct Hin as [Hin|Hin]; [injection Hin as <- <-; simpl; lia|]).
    contradiction.
  - simpl in Hin.
    repeat (destruct Hin as [Hin|Hin]; [injection Hin as <- <-; reflexivity|]).
    contradiction.
Qed.

Lemma chooseTok_Choice content :
  Choice content (fst (chooseTok content)) (snd (chooseTok content)).
Proof.
  unfold chooseTok.
  destruct (matchTable matchToken content) as [[ty n]|] eqn:Htab.
  - now apply ChTable.
  - destruct (consumeStringLiteral content =? 0) eqn:Hs; simpl;
      [apply Nat.eqb_eq in Hs | apply Nat.eqb_neq in Hs; now apply ChString].
    destruct (consumeWhiteSpace content =? 0) eqn:Hw; simpl;
      [apply Nat.eqb_eq in Hw | apply Nat.eqb_neq in Hw; now apply ChWhiteSpace].
    destruct (matchesFrom operatorChar content =? 0) eqn:Ho; simpl;
      [apply Nat.eqb_eq in Ho | apply Nat.eqb_neq in Ho; now apply ChOperator].
    destruct (matchesFrom numberChar content =? 0) eqn:Hn; simpl;
      [apply Nat.eqb_eq in Hn | apply Nat.eqb_neq in Hn; now apply ChNumber].
    destruct (matchesFrom symbolChar content =? 0) eqn:Hy; simpl;
      [apply Nat.eqb_eq in Hy | apply Nat.eqb_neq in Hy; now apply ChSymbol].
    apply ChError. unfold noRuleMatches.
    rewrite Htab, Hs, Hw, Ho, Hn, Hy. reflexivity.
Qed.

Lemma chooseTok_length content : 1 <= snd (chooseTok content).
Proof.
  destruct (chooseTok_Choice content) as [ty n H| | | | | |]; try lia.
  apply matchToken_Some in H. lia.
Qed.

(** A span of kind [Error] is one byte long and stands where no rule
    applies, and only there. *)
Lemma chooseTok_Error content :
  TokenType.isError (fst (chooseTok content)) = noRuleMatches content
  /\ (TokenType.isError (fst (chooseTok content)) = true ->
      snd (chooseTok content) = 1).
Proof.
  destruct (chooseTok_Choice content) as [ty n H|H|H|H|H|H|H].
  1: { unfold noRuleMatches. rewrite H.
       apply matchToken_Some in H as [_ H]. rewrite H.
       split; [reflexivity | discriminate]. }
  6: { rewrite H. simpl. auto. }
  all: unfold noRuleMatches; rewrite H;
    repeat match goal with
    | E : _ = 0 |- _ => rewrite E; clear E
    | E : _ <> 0 |- _ => apply Nat.eqb_neq in E; rewrite E; clear E
    end; simpl; split; [reflexivity | discriminate].
Qed.

Lemma consumeStringLiteral_le content :
  consumeStringLiteral content <= length content.
Proof.
  unfold consumeStringLiteral.
  destruct (find quotes (at_ content 0)) eqn:Hq; [|lia].
  destruct content as [|c content]; [discriminate|].
  set (r := scan _ _ 1).
  assert (r <= length (c :: content)) by (apply scan_le; simpl; lia).
  destruct (r <? length (c :: content)) eqn:Hlt; [|lia].
  apply Nat.ltb_lt in Hlt. lia.
Qed.

Lemma matchesFrom_le chars content : matchesFrom chars content <= length content.
Proof. apply scan_le. lia. Qed.

(** Only the white-space rule can choose a span that leaves the text. *)
Lemma chooseTok_le content :
  content <> [] ->
  fst (chooseTok content) <> TokenType.WhiteSpace ->
  snd (chooseTok content) <= length content.
Proof.
  intros Hne.
  destruct (chooseTok_Choice content) as [ty n H| | | | | |]; intros Hty;
    auto using consumeStringLiteral_le, matchesFrom_le.
  - apply matchToken_Some in H. lia.
  - congruence.
  - destruct content; [congruence | simpl; lia].
Qed.

(** ** The loop of [lex] *)

(** The branch for an empty span is never taken: an iteration either logs
    an unexpected byte or appends a token. *)
Lemma lex_body_span st :
  lex_body st =
    if isErrorTok (nextSpan st)
    then mkLex (spanEnd (nextSpan st)) (toks st)
               (addMsgs (ctx st) [unexpected (nextSpan st)])
    else mkLex (spanEnd (nextSpan st)) (toks st ++ [nextSpan st]) (ctx st).
Proof.
  unfold lex_body, nextSpan, isErrorTok, spanEnd, spanStart, spanLength; simpl.
  pose proof (chooseTok_length (skipn (pos st) (Context.content (ctx st)))) as H.
  destruct (snd (chooseTok (skipn (pos st) (Context.content (ctx st)))) =? 0) eqn:E.
  - apply Nat.eqb_eq in E. lia.
  - reflexivity.
Qed.

Lemma nextSpan_chosen st :
  pos st < length (Context.content (ctx st)) ->
  chosen (Context.content (ctx st)) (Context.filename (ctx st)) (nextSpan st).
Proof.
  intros H. unfold chosen, nextSpan, spanStart, spanLength; simpl.
  repeat split; auto. now destruct (chooseTok _).
Qed.

Lemma addMsgs_nil c : addMsgs c [] = c.
Proof. destruct c. unfold addMsgs. simpl. now rewrite app_nil_r. Qed.

Lemma addMsgs_app c a b : addMsgs (addMsgs c a) b = addMsgs c (a ++ b).
Proof. unfold addMsgs. simpl. now rewrite app_assoc. Qed.

(** With an iteration bound of at least the number of bytes left, the loop
    returns: its spans form a chain from the position to the end, the spans
    of a kind other than [Error] are appended to the tokens, and the others
    are logged. *)
Lemma lex_loop_spans : forall n st,
  length (Context.content (ctx st)) - pos st <= n ->
  exists spans e,
    Chain (pos st) spans e
    /\ length (Context.content (ctx st)) <= e
    /\ Forall (chosen (Context.content (ctx st)) (Context.filename (ctx st))) spans
    /\ lex_loop n st
       = Some (toks st ++ filter isToken spans,
               addMsgs (ctx st) (map unexpected (filter isErrorTok spans))).
Proof.
  induction n as [|n IH]; intros st Hn.
  - exists [], (pos st). simpl.
    assert (E : (pos st <? length (Context.content (ctx st))) = false)
      by (apply Nat.ltb_ge; lia).
    rewrite E, app_nil_r, addMsgs_nil.
    repeat split; [constructor | lia | constructor].
  - simpl. destruct (pos st <? length (Context.content (ctx st))) eqn:E.
    + apply Nat.ltb_lt in E.
      pose proof (nextSpan_chosen st E) as Hch.
      assert (Hlen : 1 <= spanLength (nextSpan st))
        by (unfold nextSpan, spanLength; simpl; apply chooseTok_length).
      assert (Hstart : spanStart (nextSpan st) = pos st) by reflexivity.
      rewrite lex_body_span.
      destruct (isErrorTok (nextSpan st)) eqn:Herr.
      * destruct (IH (mkLex (spanEnd (nextSpan st)) (toks st)
                           (addMsgs (ctx st) [unexpected (nextSpan st)])))
          as (spans & e & Hc & He & Hall & Hrun).
        { simpl. unfold spanEnd. lia. }
        simpl in *. exists (nextSpan st :: spans), e.
        repeat split; auto.
        -- constructor; auto.
        -- rewrite Hrun. cbn [filter].
           assert (Ht : isToken (nextSpan st) = false)
             by (unfold isToken; now rewrite Herr).
           rewrite Ht, Herr. cbn [map]. now rewrite addMsgs_app.
      * destruct (IH (mkLex (spanEnd (nextSpan st)) (toks st ++ [nextSpan st])
                           (ctx st)))
          as (spans & e & Hc & He & Hall & Hrun).
        { simpl. unfold spanEnd. lia. }
        simpl in *. exists (nextSpan st :: spans), e.
        repeat split; auto.
        -- constructor; auto.
        -- rewrite Hrun. cbn [filter].
           assert (Ht : isToken (nextSpan st) = true)
             by (unfold isToken; now rewrite Herr).
           rewrite Ht, Herr. now rewrite <- app_assoc.
    + apply Nat.ltb_ge in E. exists [], (pos st). simpl.
      rewrite app_nil_r, addMsgs_nil.
      repeat split; [constructor | lia | constructor].
Qed.

(** The run of [lex]: a chain of spans from offset 0 to the end of the
    text. *)
Lemma lex_n_spans n c :
  length (Context.content c) <= n ->
  exists spans e,
    Chain 0 spans e
    /\ length (Context.content c) <= e
    /\ Forall (chosen (Context.content c) (Context.filename c)) spans
    /\ lex_n n c
       = Some (filter isToken spans,
               addMsgs (Context.startStep c PassStep.Lex)
                       (map unexpected (filter isErrorTok spans))).
Proof.
  intros Hn. unfold lex_n.
  destruct (lex_loop_spans n (mkLex 0 [] (Context.startStep c PassStep.Lex)))
    as (spans & e & Hc & He & Hall & Hrun).
  { simpl. lia. }
  exists spans, e. simpl in *. auto.
Qed.

(** A chain is determined by the text: two runs make the same spans. *)
Lemma Chain_chosen_unique content file : forall l1 p e1,
  Chain p l1 e1 -> length content <= e1 -> Forall (chosen content file) l1 ->
  forall l2 e2,
  Chain p l2 e2 -> length content <= e2 -> Forall (chosen content file) l2 ->
  l1 = l2 /\ e1 = e2.
Proof.
  intros l1 p e1 H1. induction H1 as [p|p t l e Hs Hc IH]; intros He1 Hall1 l2 e2 H2 He2 Hall2.
  - destruct H2 as [p|p t l e Hs Hc]; [auto|].
    apply Forall_inv in Hall2. destruct Hall2 as [Hlt _]. lia.
  - apply Forall_inv in Hall1 as H1'. apply Forall_inv_tail in Hall1.
    destruct H2 as [p|p t' l' e' Hs' Hc'].
    + destruct H1' as [Hlt _]. lia.
    + apply Forall_inv in Hall2 as H2'. apply Forall_inv_tail in Hall2.
      assert (t = t').
      { destruct H1' as (_ & Hf & Hch), H2' as (_ & Hf' & Hch').
        destruct t as [ty [s n f]], t' as [ty' [s' n' f']].
        unfold spanStart, spanLength in *; simpl in *. subst.
        rewrite Hch in Hch'. now injection Hch' as -> ->. }
      subst t'. destruct (IH He1 Hall1 l' e' Hc' He2 Hall2) as [-> ->]. auto.
Qed.

(** ** Chains of spans *)

Lemma chosen_length content file t : chosen content file t -> 1 <= spanLength t.
Proof.
  intros (_ & _ & H).
  replace (spanLength t) with (snd (chooseTok (skipn (spanStart t) content)))
    by now rewrite H.
  apply chooseTok_length.
Qed.

Lemma chosen_Error content file t :
  chosen content file t ->
  isErrorTok t = noRuleMatches (skipn (spanStart t) content)
  /\ (if isErrorTok t then spanLength t = 1 else 1 <= spanLength t).
Proof.
  intros Hch. pose proof (chosen_length content file t Hch) as Hlen.
  destruct Hch as (_ & _ & H).
  destruct (chooseTok_Error (skipn (spanStart t) content)) as [Hno Hone].
  rewrite H in Hno, Hone. simpl in Hno, Hone. unfold isErrorTok.
  split; [exact Hno|].
  destruct (TokenType.isError (Token.type t)); auto.
Qed.

Lemma HdRel_Forall (R : Token.t -> Token.t -> Prop) a l :
  Forall (R a) l -> HdRel R a l.
Proof. intros H. destruct l; constructor. now apply Forall_inv in H. Qed.

Lemma Chain_sorted (f : Token.t -> bool) : forall p l e,
  Chain p l e ->
  Forall (fun t => 1 <= spanLength t) l ->
  Sorted follows (filter f l) /\ Forall (fun t => p <= spanStart t) l.
Proof.
  intros p l e H. induction H as [p|p t l e Hs Hc IH]; intros Hall.
  - split; constructor.
  - apply Forall_inv in Hall as Ht. apply Forall_inv_tail in Hall.
    destruct (IH Hall) as [Hsorted Hafter]. split.
    + cbn [filter]. destruct (f t); [|exact Hsorted].
      constructor; [exact Hsorted|].
      apply HdRel_Forall. apply Forall_forall. intros x Hx.
      apply filter_In in Hx as [Hx _].
      rewrite Forall_forall in Hafter. specialize (Hafter x Hx).
      unfold follows, spanEnd. lia.
    + constructor; [lia|].
      eapply Forall_impl; [|exact Hafter]. simpl. intros; lia.
Qed.

Lemma firstn_firstn_skipn (A : Type) (l : list A) : forall a b,
  firstn a l ++ firstn b (skipn a l) = firstn (a + b) l.
Proof.
  induction l as [|x l IH]; intros a b.
  - now rewrite skipn_nil, !firstn_nil.
  - destruct a as [|a]; simpl; [reflexivity|]. now rewrite IH.
Qed.

(** The slices of a chain, put together, are the text between its ends. *)
Lemma Chain_concat content : forall p l e,
  Chain p l e ->
  p <= e
  /\ concat (map (getString content) l) = substr content p (e - p).
Proof.
  intros p l e H. induction H as [p|p t l e Hs Hc [Hle IH]].
  - split; [lia|]. unfold substr. now rewrite Nat.sub_diag.
  - split; [lia|]. cbn [map concat]. rewrite IH.
    unfold getString, substr. rewrite Hs.
    replace (skipn (p + spanLength t) content)
      with (skipn (spanLength t) (skipn p content))
      by (rewrite skipn_skipn; f_equal; lia).
    rewrite firstn_firstn_skipn. f_equal. lia.
Qed.

Lemma Chain_end_le N : forall p l e,
  Chain p l e -> p <= N -> Forall (fun t => spanEnd t <= N) l -> e <= N.
Proof.
  intros p l e H. induction H as [p|p t l e Hs Hc IH]; intros Hp Hall; [lia|].
  apply Forall_inv in Hall as Ht. apply Forall_inv_tail in Hall.
  apply IH; auto. unfold spanEnd in Ht. lia.
Qed.

(** [lex] returns on every text. *)
Lemma lex_returns c : exists toks c', lex c = Some (toks, c').
Proof.
  destruct (lex_n_spans (length (Context.content c)) c (le_n _))
    as (spans & e & _ & _ & _ & Hrun).
  eauto.
Qed.

(** ** The token stream of [lex] *)

(** C1 (amended).  For every source text whose tokens all lie within the
    text (a text that ends inside an unterminated block comment is left
    aside), the spans scanned by [lex] form a chain from offset 0 to the
    length of the text with no gaps and no overlaps, and their slices
    [text[start, start+length)], put together, are the text.  The spans of a
    kind other than [Error] are the tokens, in this order; a span of kind
    [Error] is one byte long and is reported by a message instead of a
    token. *)
Theorem lex_partition (c : Context.t) (H : tokensInBounds c = true) :
  exists spans,
    Chain 0 spans (length (Context.content c))
    /\ concat (map (getString (Context.content c)) spans) = Context.content c
    /\ Forall (fun t => if isErrorTok t then spanLength t = 1
                        else 1 <= spanLength t) spans
    /\ lex c = Some (filter isToken spans,
                     addMsgs (Context.startStep c PassStep.Lex)
                             (map unexpected (filter isErrorTok spans))).
Proof.
  destruct (lex_n_spans (length (Context.content c)) c (le_n _))
    as (spans & e & Hc & He & Hall & Hrun).
  fold (lex c) in Hrun.
  unfold tokensInBounds in H. rewrite Hrun in H.
  rewrite forallb_forall in H.
  assert (Hend : e <= length (Context.content c)).
  { apply (Chain_end_le (length (Context.content c)) 0 spans e Hc); [lia|].
    apply Forall_forall. intros t Ht.
    rewrite Forall_forall in Hall. specialize (Hall t Ht).
    destruct (chosen_Error _ _ _ Hall) as [_ Hlen].
    destruct (isErrorTok t) eqn:Herr.
    - destruct Hall as (Hlt & _). unfold spanEnd. lia.
    - apply Nat.leb_le. apply H. apply filter_In.
      split; [exact Ht|]. unfold isToken. now rewrite Herr. }
  assert (e = length (Context.content c)) as -> by lia.
  exists spans. repeat split; auto.
  - destruct (Chain_concat (Context.content c) 0 spans _ Hc) as [_ Hcat].
    rewrite Hcat. unfold substr. simpl. rewrite Nat.sub_0_r. apply firstn_all.
  - eapply Forall_impl; [|exact Hall]. intros t Ht.
    now destruct (chosen_Error _ _ _ Ht).
Qed.

Lemma lex_partition_witness :
  tokensInBounds (Context.init (str "var * 32") "<filename>") = true
  /\ exists spans,
       Chain 0 spans 8
       /\ concat (map (getString (str "var * 32")) spans) = str "var * 32"
       /\ Forall (fun t => if isErrorTok t then spanLength t = 1
                           else 1 <= spanLength t) spans
       /\ lex (Context.init (str "var * 32") "<filename>")
          = Some (filter isToken spans,
                  addMsgs (Context.startStep
                             (Context.init (str "var * 32") "<filename>")
                             PassStep.Lex)
                          (map unexpected (filter isErrorTok spans))).
Proof.
  split; [reflexivity|].
  apply (lex_partition (Context.init (str "var * 32") "<filename>")).
  reflexivity.
Defined.

(** C1, as stated, fails on a text with a byte that no rule matches: the
    byte gets no token, so the tokens do not cover the text. *)
Lemma lex_partition_counterexample :
  ~ (exists toks c',
       lex (Context.init [one] "<filename>") = Some (toks, c')
       /\ Chain 0 toks (length [one])).
Proof.
  intros (toks & c' & H & Hc). vm_compute in H. injection H as <- <-.
  inversion Hc.
Qed.

(** C9.  [chooseTok] returns a length of at least 1 (on every text, so on
    every non-empty suffix); hence an iteration of [lex] moves the position
    strictly forward and logs nothing but an unexpected byte, the branch
    of the empty token being dead; and the loop of [lex] returns on every
    text, after at most one iteration for each byte, with the same result
    for every larger bound, the messages it adds being
    [Unexpected character] errors. *)
Theorem lex_terminates :
  (forall content, 1 <= snd (chooseTok content))
  /\ (forall st,
        pos st < pos (lex_body st)
        /\ (ctx (lex_body st) = ctx st
            \/ ctx (lex_body st) = addMsgs (ctx st) [unexpected (nextSpan st)]))
  /\ (forall c, exists toks c' new,
        lex c = Some (toks, c')
        /\ (forall k, lex_n (length (Context.content c) + k) c = Some (toks, c'))
        /\ Context.msgs c' = Context.msgs c ++ new
        /\ Forall (fun m => Message.type m = MessageType.Error
                            /\ Message.msg m = "Unexpected character"%string)
                  new).
Proof.
  split; [exact chooseTok_length|]. split.
  - intros st. rewrite lex_body_span.
    assert (Hlen : 1 <= spanLength (nextSpan st))
      by (unfold nextSpan, spanLength; simpl; apply chooseTok_length).
    assert (Hstart : spanStart (nextSpan st) = pos st) by reflexivity.
    destruct (isErrorTok (nextSpan st)); simpl; unfold spanEnd;
      (split; [lia | auto]).
  - intros c.
    destruct (lex_n_spans (length (Context.content c)) c (le_n _))
      as (spans & e & Hc & He & Hall & Hrun).
    fold (lex c) in Hrun.
    exists (filter isToken spans),
           (addMsgs (Context.startStep c PassStep.Lex)
                    (map unexpected (filter isErrorTok spans))),
           (map unexpected (filter isErrorTok spans)).
    repeat split; auto.
    + intros k.
      destruct (lex_n_spans (length (Context.content c) + k) c ltac:(lia))
        as (spans' & e' & Hc' & He' & Hall' & Hrun').
      destruct (Chain_chosen_unique (Context.content c) (Context.filename c)
                  spans 0 e Hc He Hall spans' e' Hc' He' Hall') as [-> _].
      exact Hrun'.
    + apply Forall_forall. intros m Hm. apply in_map_iff in Hm as (t & <- & _).
      split; reflexivity.
Qed.

(** C10.  The tokens [lex] returns are in strictly increasing order of
    start offset, and each one starts at or after the end of the one before
    it, whether or not spans of kind [Error] were skipped between them. *)
Theorem lex_tokens_ordered (c : Context.t) :
  exists toks c', lex c = Some (toks, c') /\ Sorted follows toks.
Proof.
  destruct (lex_n_spans (length (Context.content c)) c (le_n _))
    as (spans & e & Hc & He & Hall & Hrun).
  fold (lex c) in Hrun.
  exists (filter isToken spans),
         (addMsgs (Context.startStep c PassStep.Lex)
                  (map unexpected (filter isErrorTok spans))).
  split; [exact Hrun|].
  apply (Chain_sorted isToken 0 spans e Hc).
  eapply Forall_impl; [|exact Hall]. intros t Ht.
  now apply chosen_length with (content := Context.content c)
                               (file := Context.filename c).
Qed.

(** ** String literals and block comments at the end of the text *)

(** C2.  On the text of the test [a string literal with newlines], a
    single-quoted literal, a newline, and a second single quote followed by
    [foo], the scan of the first literal runs over the newline up to the
    second quote: [lex] returns one [StringLiteral] token of six bytes and
    the [Symbol] token [foo], and logs nothing, where the claim (and the
    test) expect two [StringLiteral] tokens and two messages. *)
Theorem lex_string_literal_newline :
  lexText (str "'123" ++ [nl] ++ str "'foo")
  = Some ([tok TokenType.StringLiteral 0 6; tok TokenType.Symbol 6 3], []).
Proof. reflexivity. Qed.

(** C3.  On a text that ends inside a block comment, here the two bytes
    that open one, the white-space token [lex] returns is three bytes long:
    its end lies one byte behind the end of the text. *)
Theorem lex_block_comment_overrun :
  lexText (str "/*") = Some ([tok TokenType.WhiteSpace 0 3], [])
  /\ length (str "/*") = 2
  /\ inBounds (str "/*") (tok TokenType.WhiteSpace 0 3) = false.
Proof. repeat split. Qed.

(** C4.  On a text that ends inside a string literal, [lex] returns the
    [StringLiteral] token and logs no message at all. *)
Theorem lex_string_literal_eof :
  lexText (str "'foo") = Some ([tok TokenType.StringLiteral 0 4], []).
Proof. reflexivity. Qed.

(** ** The driver *)

(** C6.  When [done()] holds of the context on entry, [getTree] returns no
    tree and leaves the context and the error stream as they were: neither
    the lexer nor the tree builder has run.  When it does not hold on entry
    and holds after lexing, [getTree] returns no tree, with the context the
    lexer left: the tree builder has not run. *)
Theorem getTree_blocked (Tree : Type)
    (ast : Tokens -> Context.t -> option Tree * Context.t)
    (c : Context.t) (cerr : list (Output Tree)) :
  (Context.done c = true -> getTree ast c cerr = Some (None, c, cerr))
  /\ (Context.done c = false ->
      exists toks c',
        lex c = Some (toks, c')
        /\ (Context.done c' = true ->
            getTree ast c cerr
            = Some (None, c',
                    cerr ++ [OutLexed (length toks); OutTokens toks]))).
Proof.
  split.
  - intros H. unfold getTree. now rewrite H.
  - intros H.
    destruct (lex_returns c) as (toks & c' & Hlex).
    exists toks, c'. split; [exact Hlex|].
    intros H'. unfold getTree. now rewrite H, Hlex, H'.
Qed.

Lemma getTree_blocked_witness :
  Context.done blockedContext = true
  /\ getTree leafAst blockedContext [] = Some (None, blockedContext, [])
  /\ Context.done (Context.init [one] "<filename>") = false
  /\ exists toks c',
       lex (Context.init [one] "<filename>") = Some (toks, c')
       /\ Context.done c' = true
       /\ getTree leafAst (Context.init [one] "<filename>") []
          = Some (None, c', [OutLexed (length toks); OutTokens toks]).
Proof.
  split; [reflexivity|]. split.
  - apply (proj1 (getTree_blocked unit leafAst blockedContext [])). reflexivity.
  - split; [reflexivity|].
    destruct (proj2 (getTree_blocked unit leafAst (Context.init [one] "<filename>") [])
                    eq_refl) as (toks & c' & Hlex & Hget).
    exists toks, c'. split; [exact Hlex|].
    assert (Hdone : Context.done c' = true).
    { vm_compute in Hlex. injection Hlex as <- <-. reflexivity. }
    split; [exact Hdone | exact (Hget Hdone)].
Defined.

(** ** What the rules do, from the first byte *)

Lemma matchTable_first c rest :
  find tokenStart c = false -> matchTable matchToken (c :: rest) = None.
Proof.
  unfold find, tokenStart. cbn [str list_ascii_of_string existsb].
  intros H.
  repeat (apply orb_false_iff in H as [? H]).
  unfold matchToken, matchTable, substr0.
  cbn [str list_ascii_of_string length firstn bytes_eqb].
  repeat match goal with
         | E : Ascii.eqb c _ = false |- _ => rewrite E; clear E
         end.
  reflexivity.
Qed.

Lemma consumeStringLiteral_first c rest :
  find quotes c = false -> consumeStringLiteral (c :: rest) = 0.
Proof.
  intros H. unfold consumeStringLiteral. cbn [at_ nth]. now rewrite H.
Qed.

Lemma consumeWhiteSpace_first c rest :
  find whiteSpace c = false -> Ascii.eqb c "/" = false ->
  Ascii.eqb c "#" = false ->
  consumeWhiteSpace (c :: rest) = 0.
Proof.
  intros Hw Hs Hh. unfold consumeWhiteSpace.
  rewrite scan_here; [|simpl; lia|cbn [at_ nth]; now rewrite Hw].
  cbn [at_ nth]. rewrite Hs, Hh. simpl. reflexivity.
Qed.

Lemma matchesFrom_first chars c rest :
  find chars c = false -> matchesFrom chars (c :: rest) = 0.
Proof.
  intros H. unfold matchesFrom.
  apply scan_here; [simpl; lia|]. cbn [at_ nth]. now rewrite H.
Qed.

(** A run of bytes of a class, ended by the end of the text or by a byte
    outside the class, is matched in full. *)
Lemma matchesFrom_run chars run rest :
  Forall (fun c => find chars c = true) run ->
  headIs (find chars) rest = false ->
  matchesFrom chars (run ++ rest) = length run.
Proof.
  intros Hrun Hrest. unfold matchesFrom. apply scan_first.
  - rewrite length_app. lia.
  - intros i Hi. rewrite at_app_l by lia.
    rewrite Forall_forall in Hrun. rewrite Hrun; [reflexivity|].
    apply nth_In. lia.
  - intros Hlt. rewrite length_app in Hlt.
    replace (length run) with (length run + 0) by lia.
    rewrite at_app_r. destruct rest as [|c rest]; simpl in *; [lia|].
    unfold at_. simpl. now rewrite Hrest.
Qed.

(** A run of bytes of a class at the head of the text is matched at
    least. *)
Lemma matchesFrom_ge chars run rest :
  Forall (fun c => find chars c = true) run ->
  length run <= matchesFrom chars (run ++ rest).
Proof.
  intros Hrun. unfold matchesFrom.
  set (r := scan _ _ 0).
  destruct (le_lt_dec (length run) r) as [|Hlt]; [assumption|].
  assert (Hsz : r < length (run ++ rest)) by (rewrite length_app; lia).
  pose proof (scan_stop _ _ 0 Hsz) as Hs. cbv beta in Hs. fold r in Hs.
  rewrite at_app_l in Hs by lia.
  rewrite Forall_forall in Hrun. rewrite Hrun in Hs; [discriminate|].
  apply nth_In. lia.
Qed.

Lemma chooseTok_operator content :
  matchTable matchToken content = None ->
  consumeStringLiteral content = 0 ->
  consumeWhiteSpace content = 0 ->
  matchesFrom operatorChar content <> 0 ->
  chooseTok content = (TokenType.Operator, matchesFrom operatorChar content).
Proof.
  intros Ht Hs Hw Ho. unfold chooseTok. rewrite Ht, Hs, Hw. simpl.
  apply Nat.eqb_neq in Ho. now rewrite Ho.
Qed.

Lemma chooseTok_number content :
  matchTable matchToken content = None ->
  consumeStringLiteral content = 0 ->
  consumeWhiteSpace content = 0 ->
  matchesFrom operatorChar content = 0 ->
  matchesFrom numberChar content <> 0 ->
  chooseTok content = (TokenType.NumberLiteral, matchesFrom numberChar content).
Proof.
  intros Ht Hs Hw Ho Hn. unfold chooseTok. rewrite Ht, Hs, Hw, Ho. simpl.
  apply Nat.eqb_neq in Hn. now rewrite Hn.
Qed.

Lemma chooseTok_whitespace content :
  matchTable matchToken content = None ->
  consumeStringLiteral content = 0 ->
  consumeWhiteSpace content <> 0 ->
  chooseTok content = (TokenType.WhiteSpace, consumeWhiteSpace content).
Proof.
  intros Ht Hs Hw. unfold chooseTok. rewrite Ht, Hs. simpl.
  apply Nat.eqb_neq in Hw. now rewrite Hw.
Qed.

(** An iteration of [lex] that chooses a span of a kind other than [Error]
    appends it as a token and moves behind it. *)
Lemma lex_body_token st ty n :
  chooseTok (skipn (pos st) (Context.content (ctx st))) = (ty, n) ->
  TokenType.isError ty = false ->
  lex_body st
  = mkLex (pos st + n)
          (toks st ++ [Token.mk ty (Location.mk (pos st) n
                                      (Context.filename (ctx st)))])
          (ctx st).
Proof.
  intros Hc Hty. rewrite lex_body_span.
  unfold nextSpan, isErrorTok, spanEnd, spanStart, spanLength.
  rewrite Hc. simpl. now rewrite Hty.
Qed.

Lemma skipn_pre (pre rest : bytes) : skipn (length pre) (pre ++ rest) = rest.
Proof.
  rewrite skipn_app, skipn_all, Nat.sub_diag. reflexivity.
Qed.

Lemma digit_first d :
  In d nums ->
  find tokenStart d = false /\ find quotes d = false
  /\ find whiteSpace d = false /\ Ascii.eqb d "/" = false
  /\ Ascii.eqb d "#" = false /\ find operatorChar d = false
  /\ find numberChar d = true.
Proof.
  intros H. unfold nums in H. cbn [str list_ascii_of_string In] in H.
  repeat (destruct H as [<-|H]; [repeat split|]).
  contradiction.
Qed.

(** ** Number literals *)

(** C8 (amended).  When the scan is at a position that starts with a
    digit, [lex] appends one [NumberLiteral] token that covers the maximal
    run of digits and dots from there.  A run that starts with a dot is
    taken by the operator rule, which comes first: when the scan is at a
    position that starts with dots, [lex] appends one token of kind
    [Operator] there, which covers these dots at least; a run of dots only
    is an [Operator] token. *)
Theorem lex_number_run (st : LexState) (pre run rest : bytes) :
  Context.content (ctx st) = pre ++ run ++ rest ->
  pos st = length pre ->
  run <> [] ->
  (headIs (fun c => find nums c) run = true ->
   Forall (fun c => find numberChar c = true) run ->
   headIs (find numberChar) rest = false ->
   lex_body st
   = mkLex (pos st + length run)
           (toks st ++ [Token.mk TokenType.NumberLiteral
                          (Location.mk (pos st) (length run)
                             (Context.filename (ctx st)))])
           (ctx st))
  /\ (Forall (fun c => c = "."%char) run ->
      exists n,
        length run <= n
        /\ (headIs (find operatorChar) rest = false -> n = length run)
        /\ lex_body st
           = mkLex (pos st + n)
                   (toks st ++ [Token.mk TokenType.Operator
                                  (Location.mk (pos st) n
                                     (Context.filename (ctx st)))])
                   (ctx st)).
Proof.
  intros Hcontent Hpos Hne. split.
  - intros Hd Hrun Hrest. apply lex_body_token; [|reflexivity].
    rewrite Hcontent, Hpos, skipn_pre.
    destruct run as [|d run]; [congruence|]. cbn [headIs] in Hd.
    apply find_In in Hd.
    destruct (digit_first d Hd) as (Ht & Hq & Hw & Hs & Hh & Ho & _).
    rewrite <- (matchesFrom_run numberChar (d :: run) rest Hrun Hrest).
    cbn [app]. apply chooseTok_number.
    + now apply matchTable_first.
    + now apply consumeStringLiteral_first.
    + now apply consumeWhiteSpace_first.
    + now apply matchesFrom_first.
    + change (d :: run ++ rest) with ((d :: run) ++ rest).
      rewrite (matchesFrom_run numberChar (d :: run) rest Hrun Hrest).
      discriminate.
  - intros Hdots.
    assert (Hop : Forall (fun c => find operatorChar c = true) run).
    { eapply Forall_impl; [|exact Hdots]. intros c ->. reflexivity. }
    exists (matchesFrom operatorChar (run ++ rest)).
    pose proof (matchesFrom_ge operatorChar run rest Hop) as Hge.
    split; [exact Hge|]. split.
    + intros Hrest. now apply matchesFrom_run.
    + apply lex_body_token; [|reflexivity].
      rewrite Hcontent, Hpos, skipn_pre.
      destruct run as [|d run]; [congruence|].
      apply Forall_inv in Hdots as ->.
      cbn [app] in *. apply chooseTok_operator.
      * now apply matchTable_first.
      * now apply consumeStringLiteral_first.
      * now apply consumeWhiteSpace_first.
      * simpl in Hge. lia.
Qed.

Lemma lex_number_run_witness :
  lex_body (mkLex 4 [] (Context.init (str "a = 1.5;") "<filename>"))
  = mkLex 7 [tok TokenType.NumberLiteral 4 3]
          (Context.init (str "a = 1.5;") "<filename>")
  /\ exists n,
       2 <= n
       /\ n = 2
       /\ lex_body (mkLex 2 [] (Context.init (str "a ..") "<filename>"))
          = mkLex (2 + n) [tok TokenType.Operator 2 n]
                  (Context.init (str "a ..") "<filename>").
Proof.
  split.
  - apply (proj1 (lex_number_run
                    (mkLex 4 [] (Context.init (str "a = 1.5;") "<filename>"))
                    (str "a = ") (str "1.5") (str ";")
                    eq_refl eq_refl ltac:(discriminate))).
    + reflexivity.
    + repeat constructor.
    + reflexivity.
  - destruct (proj2 (lex_number_run
                       (mkLex 2 [] (Context.init (str "a ..") "<filename>"))
                       (str "a ") (str "..") []
                       eq_refl eq_refl ltac:(discriminate))
                    ltac:(repeat constructor))
      as (n & Hge & Hn & Hbody).
    exists n. split; [exact Hge|]. split; [apply Hn; reflexivity | exact Hbody].
Defined.

(** C8, as stated, fails on a run of dots only: the token is of kind
    [Operator], not [NumberLiteral]. *)
Lemma lex_number_run_counterexample :
  ~ (exists toks c',
       lex (Context.init (str ".") "<filename>") = Some (toks, c')
       /\ In (tok TokenType.NumberLiteral 0 1) toks).
Proof.
  intros (toks & c' & H & Hin). vm_compute in H. injection H as <- <-.
  destruct Hin as [Hin|[]]. discriminate.
Qed.

Example lex_dot : lexText (str ".") = Some ([tok TokenType.Operator 0 1], []).
Proof. reflexivity. Qed.

(** ** White space *)

Lemma at_app (a b : bytes) i :
  at_ (a ++ b) i = if i <? length a then at_ a i else at_ b (i - length a).
Proof.
  destruct (i <? length a) eqn:E.
  - apply Nat.ltb_lt in E. now apply at_app_l.
  - apply Nat.ltb_ge in E.
    replace i with (length a + (i - length a)) at 1 by lia. apply at_app_r.
Qed.

(** The outer loop of [consumeWhiteSpace] runs over the white space at the
    head of the text. *)
Lemma whiteSpace_scan ws tail :
  Forall (fun c => find whiteSpace c = true) ws ->
  headIs (find whiteSpace) tail = false ->
  scan (fun i => negb (find whiteSpace (at_ (ws ++ tail) i)))
       (length (ws ++ tail)) 0
  = length ws.
Proof. apply matchesFrom_run. Qed.

Lemma find_false_nth body c i :
  find body c = false -> i < length body -> Ascii.eqb (at_ body i) c = false.
Proof.
  intros H Hi. destruct (Ascii.eqb (at_ body i) c) eqn:E; [|reflexivity].
  apply Ascii.eqb_eq in E.
  assert (Hin : In c body) by (rewrite <- E; apply nth_In; exact Hi).
  apply find_In in Hin. congruence.
Qed.

(** The loop of a line comment runs to the newline or to the end. *)
Lemma line_scan (pre body rest : bytes) :
  find body nl = false ->
  (rest = [] \/ headIs (Ascii.eqb nl) rest = true) ->
  scan (fun i => Ascii.eqb (at_ (pre ++ body ++ rest) i) nl)
       (length (pre ++ body ++ rest)) (length pre)
  = length pre + length body.
Proof.
  intros Hbody Hrest. apply scan_first.
  - rewrite !length_app. lia.
  - intros i Hi. rewrite at_app.
    replace (i <? length pre) with false by (symmetry; apply Nat.ltb_ge; lia).
    rewrite at_app_l by lia. apply find_false_nth; [exact Hbody | lia].
  - intros Hlt. rewrite !length_app in Hlt.
    destruct Hrest as [->|Hrest]; [simpl in Hlt; lia|].
    rewrite app_assoc.
    replace (length pre + length body) with (length (pre ++ body) + 0)
      by (rewrite length_app; lia).
    rewrite at_app_r. destruct rest as [|c rest]; [discriminate|].
    cbn [headIs] in Hrest. unfold at_. simpl.
    now rewrite Ascii.eqb_sym.
Qed.

Lemma hasClose_nth : forall body prev j,
  hasClose prev body = false -> j < length body ->
  Ascii.eqb (at_ body j) "/" && Ascii.eqb (at_ (prev :: body) j) "*" = false.
Proof.
  induction body as [|c body IH]; intros prev j H Hj; simpl in Hj; [lia|].
  cbn [hasClose] in H. apply orb_false_iff in H as [Hhere Hlater].
  destruct j as [|j].
  - unfold at_. simpl. now rewrite andb_comm.
  - change (at_ (c :: body) (S j)) with (at_ body j).
    change (at_ (prev :: c :: body) (S j)) with (at_ (c :: body) j).
    apply IH; [exact Hlater | lia].
Qed.

(** The loop of a block comment runs to the slash of its first end. *)
Lemma block_scan (pre body rest : bytes) :
  hasClose "*" body = false ->
  scan (fun i =>
          Ascii.eqb (at_ (pre ++ str "/*" ++ body ++ str "*/" ++ rest) i) "/"
          && Ascii.eqb (at_ (pre ++ str "/*" ++ body ++ str "*/" ++ rest)
                            (i - 1)) "*")
       (length (pre ++ str "/*" ++ body ++ str "*/" ++ rest))
       (S (S (length pre)))
  = length pre + length body + 3.
Proof.
  intros Hbody.
  assert (Hat : forall j,
            at_ (pre ++ str "/*" ++ body ++ str "*/" ++ rest)
                (length pre + 1 + j)
            = at_ (("*"%char :: body) ++ str "*/" ++ rest) j).
  { intros j. rewrite at_app.
    replace (length pre + 1 + j <? length pre) with false
      by (symmetry; apply Nat.ltb_ge; lia).
    replace (length pre + 1 + j - length pre) with (S j) by lia.
    reflexivity. }
  apply scan_first.
  - rewrite !length_app. simpl. lia.
  - intros i Hi.
    replace i with (length pre + 1 + S (i - length pre - 2)) at 1 by lia.
    replace (i - 1) with (length pre + 1 + (i - length pre - 2)) by lia.
    rewrite !Hat. set (j := i - length pre - 2).
    assert (Hj : j <= length body) by (unfold j; lia).
    change (at_ (("*"%char :: body) ++ str "*/" ++ rest) (S j))
      with (at_ (body ++ str "*/" ++ rest) j).
    destruct (Nat.eq_dec j (length body)) as [->|Hne].
    + replace (length body) with (length body + 0) at 1 by lia.
      rewrite at_app_r. reflexivity.
    + rewrite at_app_l by lia.
      rewrite at_app_l by (simpl; lia).
      apply hasClose_nth; [exact Hbody | lia].
  - intros _.
    replace (length pre + length body + 3)
      with (length pre + 1 + S (length body + 1)) at 1 by lia.
    replace (length pre + length body + 3 - 1)
      with (length pre + 1 + (S (length body) + 0)) by lia.
    rewrite !Hat.
    change (at_ (("*"%char :: body) ++ str "*/" ++ rest) (S (length body + 1)))
      with (at_ (body ++ str "*/" ++ rest) (length body + 1)).
    rewrite at_app_r.
    change (S (length body)) with (length ("*"%char :: body)).
    rewrite at_app_r. reflexivity.
Qed.

Lemma consumeWhiteSpace_consumeComment content :
  consumeWhiteSpace content
  = let loc := scan (fun i => negb (find whiteSpace (at_ content i)))
                    (length content) 0 in
    if loc <? length content then consumeComment content loc else loc.
Proof. reflexivity. Qed.

Lemma consumeWhiteSpace_app ws tail :
  Forall (fun c => find whiteSpace c = true) ws ->
  headIs (find whiteSpace) tail = false ->
  consumeWhiteSpace (ws ++ tail)
  = match tail with
    | [] => length ws
    | _ :: _ => consumeComment (ws ++ tail) (length ws)
    end.
Proof.
  intros Hws Htail. rewrite consumeWhiteSpace_consumeComment.
  rewrite (whiteSpace_scan ws tail Hws Htail). cbv zeta.
  rewrite length_app. destruct tail as [|c tail]; simpl length.
  - replace (length ws <? length ws + 0) with false
      by (symmetry; apply Nat.ltb_ge; lia).
    reflexivity.
  - replace (length ws <? length ws + S (length tail)) with true
      by (symmetry; apply Nat.ltb_lt; lia).
    reflexivity.
Qed.

Lemma at_after (ws tail : bytes) j : at_ (ws ++ tail) (length ws + j) = at_ tail j.
Proof. apply at_app_r. Qed.

Lemma at_here (ws tail : bytes) : at_ (ws ++ tail) (length ws) = at_ tail 0.
Proof. rewrite <- (Nat.add_0_r (length ws)) at 1. apply at_after. Qed.

Ltac ltb_to b :=
  match goal with
  | |- context [?x <? ?y] =>
      replace (x <? y) with b
        by (symmetry; first [apply Nat.ltb_lt | apply Nat.ltb_ge];
            rewrite ?length_app; simpl; lia)
  end.

Lemma consumeComment_none ws c rest :
  opensComment (c :: rest) = false ->
  consumeComment (ws ++ c :: rest) (length ws) = length ws.
Proof.
  intros Hopen. unfold consumeComment. rewrite at_here.
  change (at_ (c :: rest) 0) with c.
  assert (Hblock : blockComment (ws ++ c :: rest) c (length ws) = length ws).
  { unfold blockComment. rewrite at_after.
    change (at_ (c :: rest) 1) with (at_ rest 0).
    destruct (Ascii.eqb c "/") eqn:Hc; [|reflexivity].
    apply Ascii.eqb_eq in Hc. subst c.
    destruct rest as [|c2 rest].
    - ltb_to false. reflexivity.
    - change (at_ (c2 :: rest) 0) with c2.
      destruct (Ascii.eqb c2 "*") eqn:Hstar; [|now rewrite andb_false_r].
      apply Ascii.eqb_eq in Hstar. subst c2. discriminate. }
  rewrite Hblock. unfold lineComment. rewrite at_after.
  change (at_ (c :: rest) 1) with (at_ rest 0).
  destruct (Ascii.eqb c "#") eqn:Hh.
  { apply Ascii.eqb_eq in Hh. subst c. discriminate. }
  destruct (Ascii.eqb c "/") eqn:Hc; [|reflexivity].
  apply Ascii.eqb_eq in Hc. subst c.
  destruct rest as [|c2 rest].
  - ltb_to false. reflexivity.
  - change (at_ (c2 :: rest) 0) with c2.
    destruct (Ascii.eqb c2 "/") eqn:Hslash; [|now rewrite andb_false_r].
    apply Ascii.eqb_eq in Hslash. subst c2. discriminate.
Qed.

Lemma consumeComment_hash (ws body rest : bytes) :
  find body nl = false ->
  (rest = [] \/ headIs (Ascii.eqb nl) rest = true) ->
  consumeComment (ws ++ (str "#" ++ body) ++ rest) (length ws)
  = length ws + length (str "#" ++ body).
Proof.
  intros Hbody Hrest. unfold consumeComment. rewrite at_here.
  change (at_ ((str "#" ++ body) ++ rest) 0) with "#"%char.
  change (blockComment (ws ++ (str "#" ++ body) ++ rest) "#" (length ws))
    with (length ws).
  unfold lineComment. cbn [Ascii.eqb Bool.eqb andb orb].
  replace (ws ++ (str "#" ++ body) ++ rest)
    with ((ws ++ str "#") ++ body ++ rest)
    by (now rewrite <- !app_assoc).
  replace (S (length ws)) with (length (ws ++ str "#"))
    by (rewrite length_app; simpl; lia).
  rewrite line_scan by assumption.
  rewrite !length_app. simpl. lia.
Qed.

Lemma consumeComment_slash (ws body rest : bytes) :
  find body nl = false ->
  (rest = [] \/ headIs (Ascii.eqb nl) rest = true) ->
  consumeComment (ws ++ (str "//" ++ body) ++ rest) (length ws)
  = length ws + length (str "//" ++ body).
Proof.
  intros Hbody Hrest. unfold consumeComment. rewrite at_here.
  change (at_ ((str "//" ++ body) ++ rest) 0) with "/"%char.
  assert (Hblock : blockComment (ws ++ (str "//" ++ body) ++ rest) "/" (length ws)
                   = length ws).
  { unfold blockComment. rewrite at_after.
    change (at_ ((str "//" ++ body) ++ rest) 1) with "/"%char.
    cbn [Ascii.eqb Bool.eqb]. now rewrite andb_false_r. }
  rewrite Hblock. unfold lineComment. rewrite at_after.
  change (at_ ((str "//" ++ body) ++ rest) 1) with "/"%char.
  ltb_to true. cbn [Ascii.eqb Bool.eqb andb orb].
  replace (ws ++ (str "//" ++ body) ++ rest)
    with ((ws ++ str "/") ++ ("/"%char :: body) ++ rest)
    by (now rewrite <- !app_assoc).
  replace (S (length ws)) with (length (ws ++ str "/"))
    by (rewrite length_app; simpl; lia).
  rewrite line_scan; [| |assumption].
  - rewrite !length_app. simpl. lia.
  - unfold find in *. cbn [existsb]. rewrite Hbody. reflexivity.
Qed.

Lemma consumeComment_block (ws body rest : bytes) :
  hasClose "*" body = false ->
  headIs (Ascii.eqb "/") (tl rest) = false ->
  consumeComment (ws ++ (str "/*" ++ body ++ str "*/") ++ rest) (length ws)
  = length ws + length (str "/*" ++ body ++ str "*/").
Proof.
  intros Hbody Hrest. unfold consumeComment. rewrite at_here.
  change (at_ ((str "/*" ++ body ++ str "*/") ++ rest) 0) with "/"%char.
  assert (Hblock :
            blockComment (ws ++ (str "/*" ++ body ++ str "*/") ++ rest) "/"
                         (length ws)
            = length (ws ++ str "/*" ++ body ++ str "*/")).
  { unfold blockComment. rewrite at_after.
    change (at_ ((str "/*" ++ body ++ str "*/") ++ rest) 1) with "*"%char.
    ltb_to true. cbn [Ascii.eqb Bool.eqb andb].
    replace (ws ++ (str "/*" ++ body ++ str "*/") ++ rest)
      with (ws ++ str "/*" ++ body ++ str "*/" ++ rest)
      by (now rewrite <- !app_assoc).
    rewrite block_scan by assumption.
    rewrite !length_app. simpl. lia. }
  rewrite Hblock. unfold lineComment.
  replace (ws ++ (str "/*" ++ body ++ str "*/") ++ rest)
    with ((ws ++ str "/*" ++ body ++ str "*/") ++ rest)
    by (now rewrite <- !app_assoc).
  rewrite at_after.
  assert (Hno : (length (ws ++ str "/*" ++ body ++ str "*/") + 1
                 <? length ((ws ++ str "/*" ++ body ++ str "*/") ++ rest))
                && Ascii.eqb (at_ rest 1) "/" = false).
  { destruct rest as [|a [|b rest]].
    - apply andb_false_iff. left. apply Nat.ltb_ge. rewrite length_app. simpl. lia.
    - apply andb_false_iff. left. apply Nat.ltb_ge. rewrite length_app. simpl. lia.
    - apply andb_false_iff. right. cbn [tl headIs] in Hrest.
      change (at_ (a :: b :: rest) 1) with b. now rewrite Ascii.eqb_sym. }
  cbn [Ascii.eqb Bool.eqb andb orb]. rewrite Hno. cbn [orb].
  rewrite !length_app. simpl. lia.
Qed.

Lemma consumeComment_block_short (ws rest : bytes) :
  headIs (Ascii.eqb "/") (tl rest) = false ->
  consumeComment (ws ++ str "/*/" ++ rest) (length ws) = length ws + 3.
Proof.
  intros Hrest. unfold consumeComment. rewrite at_here.
  change (at_ (str "/*/" ++ rest) 0) with "/"%char.
  assert (Hblock : blockComment (ws ++ str "/*/" ++ rest) "/" (length ws)
                   = length (ws ++ str "/*/")).
  { unfold blockComment. rewrite at_after.
    change (at_ (str "/*/" ++ rest) 1) with "*"%char.
    ltb_to true. cbn [Ascii.eqb Bool.eqb andb].
    rewrite scan_here.
    - rewrite length_app. simpl. lia.
    - rewrite !length_app. simpl. lia.
    - replace (S (S (length ws))) with (length ws + 2) by lia.
      replace (length ws + 2 - 1) with (length ws + 1) by lia.
      rewrite !at_after. reflexivity. }
  rewrite Hblock. unfold lineComment.
  replace (ws ++ str "/*/" ++ rest) with ((ws ++ str "/*/") ++ rest)
    by (now rewrite <- app_assoc).
  rewrite at_after.
  assert (Hno : (length (ws ++ str "/*/") + 1
                 <? length ((ws ++ str "/*/") ++ rest))
                && Ascii.eqb (at_ rest 1) "/" = false).
  { destruct rest as [|a [|b rest]].
    - apply andb_false_iff. left. apply Nat.ltb_ge. rewrite length_app. simpl. lia.
    - apply andb_false_iff. left. apply Nat.ltb_ge. rewrite length_app. simpl. lia.
    - apply andb_false_iff. right. cbn [tl headIs] in Hrest.
      change (at_ (a :: b :: rest) 1) with b. now rewrite Ascii.eqb_sym. }
  cbn [Ascii.eqb Bool.eqb andb orb]. rewrite Hno. cbn [orb].
  rewrite length_app. simpl. lia.
Qed.

(** White space followed by at most one comment is consumed in full, and
    nothing more, unless the test for a line comment succeeds behind a
    block comment. *)
Lemma consumeWhiteSpace_comment ws comment rest :
  Forall (fun c => find whiteSpace c = true) ws ->
  Comment comment rest ->
  staleSlash comment rest = false ->
  consumeWhiteSpace (ws ++ comment ++ rest) = length ws + length comment.
Proof.
  intros Hws Hc Hstale.
  destruct Hc as [rest Hw Ho|body rest Hb Hr|body rest Hb Hr|body rest Hb|rest].
  - cbn [app]. rewrite consumeWhiteSpace_app by assumption.
    destruct rest as [|c rest]; [simpl; lia|].
    rewrite consumeComment_none by assumption. simpl. lia.
  - rewrite consumeWhiteSpace_app; [|assumption|reflexivity].
    rewrite <- consumeComment_hash with (rest := rest) by assumption.
    reflexivity.
  - rewrite consumeWhiteSpace_app; [|assumption|reflexivity].
    rewrite <- consumeComment_slash with (rest := rest) by assumption.
    reflexivity.
  - rewrite consumeWhiteSpace_app; [|assumption|reflexivity].
    rewrite <- consumeComment_block with (rest := rest) by assumption.
    reflexivity.
  - rewrite consumeWhiteSpace_app; [|assumption|reflexivity].
    rewrite <- consumeComment_block_short with (rest := rest) by assumption.
    reflexivity.
Qed.

Lemma white_first c :
  find whiteSpace c = true ->
  find tokenStart c = false /\ find quotes c = false.
Proof.
  intros H. apply find_In in H. unfold whiteSpace in H. cbn [In] in H.
  repeat (destruct H as [<-|H]; [split; reflexivity|]).
  contradiction.
Qed.

(** C7 (amended).  When the scan is at a run of white-space characters
    followed by at most one comment, [lex] appends exactly one [WhiteSpace]
    token that covers the run and the comment, and goes on right behind
    the comment: white space or comments that follow a comment are not part
    of this token.  Here the run is followed by no comment when the text
    behind it starts with neither white space nor a comment; a line comment
    is taken from its sharp sign or its two slashes up to, not including,
    its newline, or up to the end of the text; and a block comment is
    closed and taken up to the first slash that comes directly after a
    star, the star of its opening included.  Two cases are left aside: a
    block comment that is not closed, and a closed block comment with a
    slash as the second byte behind it ([staleSlash]), where the test for a
    line comment is made with the byte that opened the block comment. *)
Theorem lex_whitespace_run (st : LexState) (pre ws comment rest : bytes) :
  Context.content (ctx st) = pre ++ ws ++ comment ++ rest ->
  pos st = length pre ->
  Forall (fun c => find whiteSpace c = true) ws ->
  Comment comment rest ->
  staleSlash comment rest = false ->
  ws ++ comment <> [] ->
  lex_body st
  = mkLex (pos st + length (ws ++ comment))
          (toks st ++ [Token.mk TokenType.WhiteSpace
                         (Location.mk (pos st) (length (ws ++ comment))
                            (Context.filename (ctx st)))])
          (ctx st).
Proof.
  intros Hcontent Hpos Hws Hc Hstale Hne.
  apply lex_body_token; [|reflexivity].
  rewrite Hcontent, Hpos, skipn_pre.
  pose proof (consumeWhiteSpace_comment ws comment rest Hws Hc Hstale) as Hlen.
  rewrite length_app, <- Hlen.
  assert (Hpos' : length ws + length comment <> 0).
  { rewrite <- length_app. destruct (ws ++ comment); [congruence | discriminate]. }
  assert (Hfirst : exists c tail,
             ws ++ comment ++ rest = c :: tail
             /\ find tokenStart c = false /\ find quotes c = false).
  { destruct ws as [|c ws].
    - destruct Hc as [rest Hw Ho|body rest Hb Hr|body rest Hb Hr|body rest Hb|rest];
        try (eexists _, _; cbn [app str list_ascii_of_string];
             split; [reflexivity | split; reflexivity]).
      contradiction.
    - exists c, (ws ++ comment ++ rest). split; [reflexivity|].
      apply Forall_inv in Hws. now apply white_first. }
  destruct Hfirst as (c & tail & Heq & Ht & Hq).
  apply chooseTok_whitespace.
  - rewrite Heq. now apply matchTable_first.
  - rewrite Heq. now apply consumeStringLiteral_first.
  - lia.
Qed.

Lemma lex_whitespace_run_witness :
  lex_body (mkLex 1 [] (Context.init (str "a  // x" ++ [nl] ++ str "b")
                                     "<filename>"))
  = mkLex 7 [tok TokenType.WhiteSpace 1 6]
          (Context.init (str "a  // x" ++ [nl] ++ str "b") "<filename>").
Proof.
  apply (lex_whitespace_run
           (mkLex 1 [] (Context.init (str "a  // x" ++ [nl] ++ str "b")
                                     "<filename>"))
           (str "a") (str "  ") (str "// x") (nl :: str "b")).
  - reflexivity.
  - reflexivity.
  - repeat constructor.
  - apply (SlashComment (str " x")); [reflexivity | right; reflexivity].
  - reflexivity.
  - discriminate.
Defined.

(** C7, as stated, fails on a block comment followed by a blank: the text
    is one region of comments and white space, and [lex] does not return
    exactly one token for it (it returns two, see
    [lex_comment_then_space]). *)
Lemma lex_whitespace_run_counterexample :
  ~ (exists t c',
       lex (Context.init (str "/**/ ") "<filename>") = Some ([t], c')).
Proof.
  intros (t & c' & H). vm_compute in H. discriminate.
Qed.

Example lex_comment_then_space :
  lexText (str "/**/ ")
  = Some ([tok TokenType.WhiteSpace 0 4; tok TokenType.WhiteSpace 4 1], []).
Proof. reflexivity. Qed.

(** ** The bytes that no rule matches *)

Lemma matchesFrom_pos chars c rest :
  find chars c = true -> matchesFrom chars (c :: rest) <> 0.
Proof.
  intros H.
  pose proof (matchesFrom_ge chars [c] rest) as Hge.
  simpl in Hge. specialize (Hge ltac:(repeat constructor; exact H)). lia.
Qed.

Lemma consumeStringLiteral_quote c rest :
  find quotes c = true -> consumeStringLiteral (c :: rest) <> 0.
Proof.
  intros H. unfold consumeStringLiteral. cbn [at_ nth]. rewrite H.
  set (r := scan _ _ 1).
  assert (1 <= r) by apply scan_ge.
  destruct (r <? length (c :: rest)); lia.
Qed.

Lemma blockComment_ge content cur loc : loc <= blockComment content cur loc.
Proof.
  unfold blockComment. destruct (_ && _); [|lia].
  pose proof (scan_ge (fun i => Ascii.eqb (at_ content i) "/"
                                && Ascii.eqb (at_ content (i - 1)) "*")
                      (length content) (S (S loc))).
  lia.
Qed.

Lemma lineComment_ge content cur loc : loc <= lineComment content cur loc.
Proof.
  unfold lineComment. destruct (_ || _); [|lia].
  pose proof (scan_ge (fun i => Ascii.eqb (at_ content i) nl)
                      (length content) (S loc)).
  lia.
Qed.

Lemma consumeComment_ge content loc : loc <= consumeComment content loc.
Proof.
  unfold consumeComment.
  pose proof (blockComment_ge content (at_ content loc) loc).
  pose proof (lineComment_ge content (at_ content loc)
                (blockComment content (at_ content loc) loc)).
  lia.
Qed.

Lemma consumeWhiteSpace_white c rest :
  find whiteSpace c = true -> consumeWhiteSpace (c :: rest) <> 0.
Proof.
  intros H. rewrite consumeWhiteSpace_consumeComment. cbv zeta.
  set (r := scan _ _ 0).
  assert (Hr : 1 <= r).
  { destruct (Nat.eq_dec r 0) as [E|]; [|lia].
    assert (Hlt : r < length (c :: rest)) by (rewrite E; simpl; lia).
    pose proof (scan_stop _ _ 0 Hlt) as Hs. cbv beta in Hs. fold r in Hs.
    rewrite E in Hs. cbn [at_ nth] in Hs. rewrite H in Hs. discriminate. }
  pose proof (consumeComment_ge (c :: rest) r).
  destruct (r <? length (c :: rest)); lia.
Qed.

(** Whether a rule matches is decided by the first byte: no rule matches
    iff that byte is in none of the classes. *)
Lemma noRuleMatches_first c rest : noRuleMatches (c :: rest) = unmatchedByte c.
Proof.
  unfold unmatchedByte, noRuleMatches.
  destruct (find operatorChar c) eqn:Ho.
  { (* an operator byte: a table entry or the operator rule, at the latest *)
    cbn [negb]. rewrite !andb_false_r. cbn [andb].
    destruct (matchTable matchToken (c :: rest)); [reflexivity|].
    apply (matchesFrom_pos operatorChar c rest) in Ho.
    apply Nat.eqb_neq in Ho. rewrite Ho. now rewrite !andb_false_r. }
  destruct (find tokenStart c) eqn:Ht.
  { (* a bracket, a semicolon or a comma *)
    apply find_In in Ht. unfold tokenStart in Ht.
    cbn [str list_ascii_of_string In] in Ht.
    repeat (destruct Ht as [<-|Ht]; [try reflexivity; try discriminate Ho|]).
    contradiction. }
  rewrite (matchTable_first c rest Ht).
  destruct (find quotes c) eqn:Hq.
  { apply (consumeStringLiteral_quote c rest) in Hq.
    apply Nat.eqb_neq in Hq. now rewrite Hq. }
  rewrite (consumeStringLiteral_first c rest Hq).
  destruct (find whiteSpace c) eqn:Hw.
  { apply (consumeWhiteSpace_white c rest) in Hw.
    apply Nat.eqb_neq in Hw. now rewrite Hw. }
  assert (Hs : Ascii.eqb c "/" = false).
  { destruct (Ascii.eqb c "/") eqn:E; [|reflexivity].
    apply Ascii.eqb_eq in E. subst c. discriminate Ho. }
  assert (Hh : Ascii.eqb c "#" = false).
  { destruct (Ascii.eqb c "#") eqn:E; [|reflexivity].
    apply Ascii.eqb_eq in E. subst c. discriminate Ho. }
  rewrite (consumeWhiteSpace_first c rest Hw Hs Hh).
  rewrite (matchesFrom_first operatorChar c rest Ho).
  destruct (find numberChar c) eqn:Hn.
  { apply (matchesFrom_pos numberChar c rest) in Hn.
    apply Nat.eqb_neq in Hn. now rewrite Hn. }
  rewrite (matchesFrom_first numberChar c rest Hn).
  destruct (find symbolChar c) eqn:Hy.
  { apply (matchesFrom_pos symbolChar c rest) in Hy.
    apply Nat.eqb_neq in Hy. now rewrite Hy. }
  rewrite (matchesFrom_first symbolChar c rest Hy).
  reflexivity.
Qed.

(** ** Texts whose block comments are closed *)

Lemma blocksClosed_skipn : forall p content,
  blocksClosed content = true -> blocksClosed (skipn p content) = true.
Proof.
  induction p as [|p IH]; intros content H; [exact H|].
  destruct content as [|c content]; [exact H|].
  cbn [skipn]. apply IH. cbn [blocksClosed] in H.
  now apply andb_true_iff in H as [_ H].
Qed.

Lemma skipn_cons_at (content : bytes) loc :
  loc < length content ->
  skipn loc content = at_ content loc :: skipn (S loc) content.
Proof.
  revert content. induction loc as [|loc IH]; intros [|c content] H;
    simpl in H; try lia.
  - reflexivity.
  - cbn [skipn]. rewrite IH by lia. reflexivity.
Qed.

Lemma hasClose_true : forall body prev,
  hasClose prev body = true ->
  exists j, j < length body
            /\ Ascii.eqb (at_ body j) "/" = true
            /\ Ascii.eqb (at_ (prev :: body) j) "*" = true.
Proof.
  induction body as [|c body IH]; intros prev H; [discriminate|].
  cbn [hasClose] in H. apply orb_true_iff in H as [H|H].
  - apply andb_true_iff in H as [Hp Hc]. exists 0. simpl. auto with arith.
  - destruct (IH c H) as (j & Hj & Hs & Hstar).
    exists (S j). simpl. repeat split; auto with arith.
Qed.

Lemma blockComment_closed content loc :
  blocksClosed content = true ->
  loc <= length content ->
  blockComment content (at_ content loc) loc <= length content.
Proof.
  intros Hclosed Hloc. unfold blockComment.
  destruct (Ascii.eqb (at_ content loc) "/" && (loc + 1 <? length content)
            && Ascii.eqb (at_ content (loc + 1)) "*") eqn:Hcond; [|exact Hloc].
  apply andb_true_iff in Hcond as [Hcond Hstar].
  apply andb_true_iff in Hcond as [Hslash Hlt].
  apply Nat.ltb_lt in Hlt.
  apply (blocksClosed_skipn loc) in Hclosed.
  rewrite (skipn_cons_at content loc) in Hclosed by lia.
  rewrite (skipn_cons_at content (S loc)) in Hclosed by lia.
  cbn [blocksClosed headIs tl] in Hclosed.
  replace (S loc) with (loc + 1) in Hclosed at 1 by lia.
  rewrite Hslash, (Ascii.eqb_sym "*"), Hstar in Hclosed.
  cbn [andb negb orb] in Hclosed.
  apply andb_true_iff in Hclosed as [Hclose _].
  apply hasClose_true in Hclose as (j & Hj & Hs & Hp).
  rewrite length_skipn in Hj. rewrite at_skipn in Hs.
  assert (Hprev : Ascii.eqb (at_ content (S (S loc) + j - 1)) "*" = true).
  { destruct j as [|j].
    - replace (S (S loc) + 0 - 1) with (loc + 1) by lia. exact Hstar.
    - change (at_ ("*"%char :: skipn (S (S loc)) content) (S j))
        with (at_ (skipn (S (S loc)) content) j) in Hp.
      rewrite at_skipn in Hp.
      replace (S (S loc) + S j - 1) with (S (S loc) + j) by lia. exact Hp. }
  set (r := scan _ _ (S (S loc))).
  destruct (le_lt_dec r (S (S loc) + j)) as [|Hgt]; [lia|].
  assert (Hin : S (S loc) <= S (S loc) + j < r) by lia.
  apply scan_before in Hin as [Hstop _].
  rewrite Hs, Hprev in Hstop. discriminate.
Qed.

Lemma lineComment_le content cur loc :
  loc <= length content ->
  (Ascii.eqb cur "#" = true -> loc < length content) ->
  lineComment content cur loc <= length content.
Proof.
  intros Hloc Hhash. unfold lineComment.
  destruct (_ || _) eqn:Hcond; [|exact Hloc].
  apply scan_le. apply orb_true_iff in Hcond as [Hcond|Hcond].
  - apply andb_true_iff in Hcond as [Hcond _].
    apply andb_true_iff in Hcond as [_ Hlt]. apply Nat.ltb_lt in Hlt. lia.
  - apply Hhash in Hcond. lia.
Qed.

(** On such a text, the white-space rule stays within the text. *)
Lemma consumeWhiteSpace_closed content :
  blocksClosed content = true -> consumeWhiteSpace content <= length content.
Proof.
  intros Hclosed. rewrite consumeWhiteSpace_consumeComment. cbv zeta.
  set (loc := scan _ _ 0).
  assert (Hloc : loc <= length content) by (apply scan_le; lia).
  destruct (loc <? length content) eqn:Hlt; [|exact Hloc].
  apply Nat.ltb_lt in Hlt. unfold consumeComment.
  apply lineComment_le.
  - now apply blockComment_closed.
  - intros Hh. unfold blockComment.
    destruct (Ascii.eqb (at_ content loc) "/") eqn:Hs; [|exact Hlt].
    apply Ascii.eqb_eq in Hs, Hh. rewrite Hs in Hh. discriminate.
Qed.

Lemma chooseTok_closed content :
  content <> [] -> blocksClosed content = true ->
  snd (chooseTok content) <= length content.
Proof.
  intros Hne Hclosed.
  destruct (TokenType.eqb (fst (chooseTok content)) TokenType.WhiteSpace) eqn:E.
  - destruct (chooseTok_Choice content) as [ty n H| | | | | |];
      try discriminate E.
    + apply matchToken_Some in H. lia.
    + now apply consumeWhiteSpace_closed.
  - apply chooseTok_le; [exact Hne|].
    intros H. rewrite H in E. discriminate.
Qed.

(** A text whose block comments are all closed has its tokens within the
    text. *)
Lemma blocksClosed_tokensInBounds c :
  blocksClosed (Context.content c) = true -> tokensInBounds c = true.
Proof.
  intros Hclosed. unfold tokensInBounds.
  destruct (lex_n_spans (length (Context.content c)) c (le_n _))
    as (spans & e & Hc & He & Hall & Hrun).
  fold (lex c) in Hrun. rewrite Hrun.
  apply forallb_forall. intros t Ht. apply filter_In in Ht as [Ht _].
  rewrite Forall_forall in Hall. destruct (Hall t Ht) as (Hlt & _ & Hch).
  unfold inBounds, spanEnd. apply Nat.leb_le.
  assert (Hlen : spanLength t
                 <= length (skipn (spanStart t) (Context.content c))).
  { replace (spanLength t)
      with (snd (chooseTok (skipn (spanStart t) (Context.content c))))
      by now rewrite Hch.
    apply chooseTok_closed.
    - intros E. apply (f_equal (@length ascii)) in E.
      rewrite length_skipn in E. simpl in E. lia.
    - now apply blocksClosed_skipn. }
  rewrite length_skipn in Hlen. lia.
Qed.

(** ** Unexpected bytes *)

(** C5 (amended).  At every position the scan reaches where no rule of
    [chooseTok] matches, and only there, [lex] takes a span of kind [Error]
    of exactly one byte; for it, [lex] appends the message
    [Unexpected character] of severity [Error] at that location and appends
    no token.  Every other span is not empty and is appended to the token
    sequence, white space included.  The positions where no rule matches
    are those whose byte is in none of the character classes. *)
Theorem lex_unexpected_character (c : Context.t) :
  exists spans e,
    Chain 0 spans e
    /\ length (Context.content c) <= e
    /\ Forall (chosen (Context.content c) (Context.filename c)) spans
    /\ Forall (fun t =>
                 isErrorTok t
                 = noRuleMatches (skipn (spanStart t) (Context.content c))
                 /\ isErrorTok t
                    = unmatchedByte (at_ (Context.content c) (spanStart t))
                 /\ (if isErrorTok t then spanLength t = 1
                     else 1 <= spanLength t)) spans
    /\ lex c = Some (filter isToken spans,
                     addMsgs (Context.startStep c PassStep.Lex)
                             (map unexpected (filter isErrorTok spans))).
Proof.
  destruct (lex_n_spans (length (Context.content c)) c (le_n _))
    as (spans & e & Hc & He & Hall & Hrun).
  exists spans, e. repeat split; auto.
  eapply Forall_impl; [|exact Hall]. intros t Ht.
  destruct (chosen_Error _ _ _ Ht) as [Hno Hlen].
  repeat split; auto.
  rewrite Hno. destruct Ht as (Hlt & _).
  rewrite (skipn_cons_at _ _ Hlt). apply noRuleMatches_first.
Qed.

(** C5, as stated, fails: for a byte that no rule matches, no token of kind
    [Error] is in the token sequence. *)
Lemma lex_unexpected_character_counterexample :
  ~ (exists toks c',
       lex (Context.init [one] "<filename>") = Some (toks, c')
       /\ In (tok TokenType.Error 0 1) toks).
Proof.
  intros (toks & c' & H & Hin). vm_compute in H. injection H as <- <-.
  destruct Hin.
Qed.

(** * Further properties of the lexer *)

(** ** The rules, one by one *)

Lemma chooseTok_string content :
  matchTable matchToken content = None ->
  consumeStringLiteral content <> 0 ->
  chooseTok content
  = (TokenType.StringLiteral, consumeStringLiteral content).
Proof.
  intros Ht Hs. unfold chooseTok. rewrite Ht.
  apply Nat.eqb_neq in Hs. now rewrite Hs.
Qed.

Lemma chooseTok_symbol content :
  matchTable matchToken content = None ->
  consumeStringLiteral content = 0 ->
  consumeWhiteSpace content = 0 ->
  matchesFrom operatorChar content = 0 ->
  matchesFrom numberChar content = 0 ->
  matchesFrom symbolChar content <> 0 ->
  chooseTok content = (TokenType.Symbol, matchesFrom symbolChar content).
Proof.
  intros Ht Hs Hw Ho Hn Hy. unfold chooseTok. rewrite Ht, Hs, Hw, Ho, Hn. simpl.
  apply Nat.eqb_neq in Hy. now rewrite Hy.
Qed.

Lemma chooseTok_table tokS ty rest :
  In (tokS, ty) matchToken ->
  chooseTok (tokS ++ rest) = (ty, length tokS)
  /\ TokenType.isError ty = false.
Proof.
  intros Hin. unfold matchToken in Hin. cbn [In] in Hin.
  repeat (destruct Hin as [Hin|Hin];
          [injection Hin as <- <-; split; reflexivity|]).
  contradiction.
Qed.

(** Punctuation comes first.  When the scan is at a position where the text
    goes on with an entry of [matchToken], whatever follows, [lex] appends
    the token of that entry, of the length of the entry: the two bytes of a
    pre- or postcondition mark are one token there and no operator. *)
Theorem lex_table_token (st : LexState) (pre tokS rest : bytes)
    (ty : TokenType.t) :
  In (tokS, ty) matchToken ->
  Context.content (ctx st) = pre ++ tokS ++ rest ->
  pos st = length pre ->
  lex_body st
  = mkLex (pos st + length tokS)
          (toks st ++ [Token.mk ty (Location.mk (pos st) (length tokS)
                                      (Context.filename (ctx st)))])
          (ctx st).
Proof.
  intros Hin Hcontent Hpos.
  destruct (chooseTok_table tokS ty rest Hin) as [Hch Hty].
  apply lex_body_token; [|exact Hty].
  now rewrite Hcontent, Hpos, skipn_pre.
Qed.

Lemma lex_table_token_witness :
  lex_body (mkLex 1 [] (Context.init (str "a-|b") "<filename>"))
  = mkLex 3 [tok TokenType.PreCond 1 2] (Context.init (str "a-|b") "<filename>").
Proof.
  apply (lex_table_token
           (mkLex 1 [] (Context.init (str "a-|b") "<filename>"))
           (str "a") (str "-|") (str "b") TokenType.PreCond).
  - unfold matchToken. cbn [In]. do 7 right. left. reflexivity.
  - reflexivity.
  - reflexivity.
Defined.

Lemma quote_first q :
  find quotes q = true -> find tokenStart q = false.
Proof.
  intros H. apply find_In in H. unfold quotes in H. cbn [In] in H.
  repeat (destruct H as [<-|H]; [reflexivity|]).
  contradiction.
Qed.

(** The scan of a string literal runs to the first byte equal to the
    opening one, or to the end. *)
Lemma string_scan (q : ascii) (body tail : bytes) :
  find body q = false ->
  (tail = [] \/ headIs (Ascii.eqb q) tail = true) ->
  scan (fun i => Ascii.eqb (at_ (q :: body ++ tail) i) q)
       (length (q :: body ++ tail)) 1
  = S (length body).
Proof.
  intros Hbody Htail. apply scan_first.
  - simpl. rewrite length_app. lia.
  - intros i Hi. destruct i as [|i]; [lia|].
    change (at_ (q :: body ++ tail) (S i)) with (at_ (body ++ tail) i).
    rewrite at_app_l by lia. apply find_false_nth; [exact Hbody | lia].
  - intros Hlt. simpl in Hlt. rewrite length_app in Hlt.
    change (at_ (q :: body ++ tail) (S (length body)))
      with (at_ (body ++ tail) (length body)).
    rewrite at_here.
    destruct Htail as [->|Htail]; [simpl in Hlt; lia|].
    destruct tail as [|c tail]; [discriminate|].
    cbn [headIs] in Htail. change (at_ (c :: tail) 0) with c.
    now rewrite Ascii.eqb_sym.
Qed.

Lemma consumeStringLiteral_closed q body rest :
  find quotes q = true -> find body q = false ->
  consumeStringLiteral (q :: body ++ q :: rest) = length body + 2.
Proof.
  intros Hq Hbody. unfold consumeStringLiteral. cbv zeta.
  change (at_ (q :: body ++ q :: rest) 0) with q. rewrite Hq.
  rewrite (string_scan q body (q :: rest));
    [|exact Hbody|right; apply Ascii.eqb_refl].
  replace (S (length body) <? length (q :: body ++ q :: rest)) with true
    by (symmetry; apply Nat.ltb_lt; simpl; rewrite length_app; simpl; lia).
  lia.
Qed.

Lemma consumeStringLiteral_open q body :
  find quotes q = true -> find body q = false ->
  consumeStringLiteral (q :: body) = length body + 1.
Proof.
  intros Hq Hbody. unfold consumeStringLiteral. cbv zeta.
  change (at_ (q :: body) 0) with q. rewrite Hq.
  pose proof (string_scan q body [] Hbody (or_introl eq_refl)) as Hscan.
  rewrite app_nil_r in Hscan. rewrite Hscan.
  replace (S (length body) <? length (q :: body)) with false
    by (symmetry; apply Nat.ltb_ge; simpl; lia).
  lia.
Qed.

(** A string literal runs from its opening quote to the next byte equal to
    it.  When the scan is at one of the three quote characters and the same
    character comes again, [lex] appends one [StringLiteral] token from the
    first to the second, both included; the bytes between them are free but
    for that character, so the other quotes and newlines do not end the
    literal, whichever quote opens it. *)
Theorem lex_string_closed (st : LexState) (pre body rest : bytes) (q : ascii) :
  Context.content (ctx st) = pre ++ q :: body ++ q :: rest ->
  pos st = length pre ->
  find quotes q = true ->
  find body q = false ->
  lex_body st
  = mkLex (pos st + (length body + 2))
          (toks st ++ [Token.mk TokenType.StringLiteral
                         (Location.mk (pos st) (length body + 2)
                            (Context.filename (ctx st)))])
          (ctx st).
Proof.
  intros Hcontent Hpos Hq Hbody.
  apply lex_body_token; [|reflexivity].
  rewrite Hcontent, Hpos, skipn_pre.
  rewrite <- (consumeStringLiteral_closed q body rest Hq Hbody).
  apply chooseTok_string.
  - apply matchTable_first. now apply quote_first.
  - rewrite consumeStringLiteral_closed by assumption. lia.
Qed.

Lemma lex_string_closed_witness :
  lex_body (mkLex 2 [] (Context.init (str "a=`x" ++ [nl] ++ str "'y`;")
                                     "<filename>"))
  = mkLex 8 [tok TokenType.StringLiteral 2 6]
          (Context.init (str "a=`x" ++ [nl] ++ str "'y`;") "<filename>").
Proof.
  apply (lex_string_closed
           (mkLex 2 [] (Context.init (str "a=`x" ++ [nl] ++ str "'y`;")
                                     "<filename>"))
           (str "a=") (str "x" ++ [nl] ++ str "'y") (str ";") "`"%char);
    reflexivity.
Defined.

(** A string literal that is not closed runs to the end of the text.  When
    the scan is at a quote character that does not come again, [lex]
    appends one [StringLiteral] token from the quote to the end of the text
    and leaves the context as it is: nothing is logged. *)
Theorem lex_string_open (st : LexState) (pre body : bytes) (q : ascii) :
  Context.content (ctx st) = pre ++ q :: body ->
  pos st = length pre ->
  find quotes q = true ->
  find body q = false ->
  lex_body st
  = mkLex (length (Context.content (ctx st)))
          (toks st ++ [Token.mk TokenType.StringLiteral
                         (Location.mk (pos st) (length body + 1)
                            (Context.filename (ctx st)))])
          (ctx st).
Proof.
  intros Hcontent Hpos Hq Hbody.
  replace (length (Context.content (ctx st)))
    with (pos st + (length body + 1))
    by (rewrite Hcontent, Hpos, length_app; simpl; lia).
  apply lex_body_token; [|reflexivity].
  rewrite Hcontent, Hpos, skipn_pre.
  rewrite <- (consumeStringLiteral_open q body Hq Hbody).
  apply chooseTok_string.
  - apply matchTable_first. now apply quote_first.
  - rewrite consumeStringLiteral_open by assumption. lia.
Qed.

Lemma lex_string_open_witness :
  lex_body (mkLex 2 [] (Context.init (str "a='x" ++ [nl] ++ str "y")
                                     "<filename>"))
  = mkLex 6 [tok TokenType.StringLiteral 2 4]
          (Context.init (str "a='x" ++ [nl] ++ str "y") "<filename>").
Proof.
  apply (lex_string_open
           (mkLex 2 [] (Context.init (str "a='x" ++ [nl] ++ str "y")
                                     "<filename>"))
           (str "a=") (str "x" ++ [nl] ++ str "y") "'"%char);
    reflexivity.
Defined.

(** ** Runs of a class *)

Lemma Forall_firstn_nth (P : ascii -> Prop) : forall n (l : bytes),
  n <= length l -> (forall i, i < n -> P (at_ l i)) -> Forall P (firstn n l).
Proof.
  induction n as [|n IH]; intros l Hn H; [constructor|].
  destruct l as [|x l]; simpl in Hn; [lia|].
  cbn [firstn]. constructor.
  - apply (H 0). lia.
  - apply IH; [lia|]. intros i Hi. apply (H (S i)). lia.
Qed.

Lemma matchesFrom_prefix (chars content : bytes) :
  Forall (fun c => find chars c = true)
         (firstn (matchesFrom chars content) content).
Proof.
  apply Forall_firstn_nth; [apply matchesFrom_le|]. intros i Hi.
  destruct (scan_before (fun i => negb (find chars (at_ content i)))
              (length content) 0 i) as [Hs _]; [unfold matchesFrom in Hi; lia|].
  now apply negb_false_iff in Hs.
Qed.

Lemma matchesFrom_stop (chars content : bytes) :
  headIs (find chars) (skipn (matchesFrom chars content) content) = false.
Proof.
  pose proof (matchesFrom_le chars content) as Hle.
  destruct (Nat.eq_dec (matchesFrom chars content) (length content)) as [E|E].
  - rewrite E, skipn_all. reflexivity.
  - rewrite skipn_cons_at by lia. cbn [headIs].
    pose proof (scan_stop (fun i => negb (find chars (at_ content i)))
                  (length content) 0) as Hs.
    fold (matchesFrom chars content) in Hs.
    specialize (Hs ltac:(lia)). now apply negb_true_iff in Hs.
Qed.

(** [matchesFrom] returns the length of the longest prefix of the text made
    of bytes of the class: the bytes before that length are in the class,
    and the byte at that length, if there is one, is not. *)
Theorem matchesFrom_maximal (chars content : bytes) :
  matchesFrom chars content <= length content
  /\ Forall (fun c => find chars c = true)
            (firstn (matchesFrom chars content) content)
  /\ headIs (find chars) (skipn (matchesFrom chars content) content) = false.
Proof.
  split; [apply matchesFrom_le|].
  split; [apply matchesFrom_prefix | apply matchesFrom_stop].
Qed.

Lemma letter_first c :
  In c symbolStart ->
  find tokenStart c = false /\ find quotes c = false
  /\ find whiteSpace c = false /\ Ascii.eqb c "/" = false
  /\ Ascii.eqb c "#" = false /\ find operatorChar c = false
  /\ find numberChar c = false.
Proof.
  intros H. unfold symbolStart, lower, upper in H.
  cbn [str list_ascii_of_string In app] in H.
  repeat (destruct H as [<-|H]; [repeat split|]).
  contradiction.
Qed.

(** Symbols.  When the scan is at a letter or an underscore, [lex] appends
    one [Symbol] token that covers the maximal run of letters, digits and
    underscores from there. *)
Theorem lex_symbol_run (st : LexState) (pre run rest : bytes) :
  Context.content (ctx st) = pre ++ run ++ rest ->
  pos st = length pre ->
  headIs (find symbolStart) run = true ->
  Forall (fun c => find symbolChar c = true) run ->
  headIs (find symbolChar) rest = false ->
  lex_body st
  = mkLex (pos st + length run)
          (toks st ++ [Token.mk TokenType.Symbol
                         (Location.mk (pos st) (length run)
                            (Context.filename (ctx st)))])
          (ctx st).
Proof.
  intros Hcontent Hpos Hhead Hrun Hrest.
  apply lex_body_token; [|reflexivity].
  rewrite Hcontent, Hpos, skipn_pre.
  destruct run as [|c run]; [discriminate|]. cbn [headIs] in Hhead.
  apply find_In in Hhead.
  destruct (letter_first c Hhead) as (Ht & Hq & Hw & Hs & Hh & Ho & Hn).
  rewrite <- (matchesFrom_run symbolChar (c :: run) rest Hrun Hrest).
  cbn [app]. apply chooseTok_symbol.
  - now apply matchTable_first.
  - now apply consumeStringLiteral_first.
  - now apply consumeWhiteSpace_first.
  - now apply matchesFrom_first.
  - now apply matchesFrom_first.
  - change (c :: run ++ rest) with ((c :: run) ++ rest).
    rewrite (matchesFrom_run symbolChar (c :: run) rest Hrun Hrest).
    discriminate.
Qed.

Lemma lex_symbol_run_witness :
  lex_body (mkLex 2 [] (Context.init (str "1+x_2*y") "<filename>"))
  = mkLex 5 [tok TokenType.Symbol 2 3]
          (Context.init (str "1+x_2*y") "<filename>").
Proof.
  apply (lex_symbol_run
           (mkLex 2 [] (Context.init (str "1+x_2*y") "<filename>"))
           (str "1+") (str "x_2") (str "*y")); try reflexivity.
  repeat constructor.
Defined.

(** ** The start of a comment *)

Lemma opensComment_spec content :
  opensComment content
  = match content with
    | [] => false
    | c :: tail =>
        Ascii.eqb c "#"
        || (Ascii.eqb c "/"
            && headIs (fun d => Ascii.eqb d "*" || Ascii.eqb d "/") tail)
    end.
Proof.
  destruct content as [|c tail]; [reflexivity|].
  destruct c as [[] [] [] [] [] [] [] []]; try reflexivity.
  destruct tail as [|d tail]; [reflexivity|].
  destruct d as [[] [] [] [] [] [] [] []]; reflexivity.
Qed.

Lemma consumeComment_opens c tail :
  opensComment (c :: tail) = true -> 1 <= consumeComment (c :: tail) 0.
Proof.
  intros H. rewrite opensComment_spec in H. unfold consumeComment.
  change (at_ (c :: tail) 0) with c.
  apply orb_true_iff in H as [H|H].
  - apply Ascii.eqb_eq in H. subst c.
    unfold lineComment. cbn [Ascii.eqb Bool.eqb andb orb].
    pose proof (scan_ge (fun i => Ascii.eqb (at_ ("#"%char :: tail) i) nl)
                  (length ("#"%char :: tail))
                  (S (blockComment ("#"%char :: tail) "#" 0))).
    lia.
  - apply andb_true_iff in H as [Hc Hd]. apply Ascii.eqb_eq in Hc. subst c.
    destruct tail as [|d tail]; [discriminate|]. cbn [headIs] in Hd.
    destruct (Ascii.eqb d "*") eqn:Hstar.
    + apply Ascii.eqb_eq in Hstar. subst d.
      pose proof (lineComment_ge ("/"%char :: "*"%char :: tail) "/"
                    (blockComment ("/"%char :: "*"%char :: tail) "/" 0)) as Hl.
      assert (1 <= blockComment ("/"%char :: "*"%char :: tail) "/" 0).
      { unfold blockComment.
        match goal with
        | |- context [if ?b then _ else _] =>
            replace b with true by reflexivity
        end.
        lia. }
      lia.
    + cbn [orb] in Hd. apply Ascii.eqb_eq in Hd. subst d.
      assert (Hb : blockComment ("/"%char :: "/"%char :: tail) "/" 0 = 0)
        by reflexivity.
      rewrite Hb. unfold lineComment.
      match goal with
      | |- context [if ?b then _ else _] =>
          replace b with true by reflexivity
      end.
      pose proof (scan_ge (fun i => Ascii.eqb
                                      (at_ ("/"%char :: "/"%char :: tail) i) nl)
                    (length ("/"%char :: "/"%char :: tail)) 1).
      lia.
Qed.

Lemma consumeWhiteSpace_declines content :
  headIs (find whiteSpace) content = false ->
  opensComment content = false ->
  consumeWhiteSpace content = 0.
Proof.
  intros Hw Ho. destruct content as [|c tail]; [reflexivity|].
  pose proof (consumeWhiteSpace_app [] (c :: tail) (Forall_nil _) Hw) as E.
  cbn [app length] in E. rewrite E.
  apply (consumeComment_none [] c tail Ho).
Qed.

Lemma consumeWhiteSpace_taken content :
  consumeWhiteSpace content = 0 ->
  headIs (find whiteSpace) content = false /\ opensComment content = false.
Proof.
  intros H. destruct content as [|c tail]; [split; reflexivity|].
  cbn [headIs].
  destruct (find whiteSpace c) eqn:Hw.
  { now apply (consumeWhiteSpace_white c tail) in Hw. }
  split; [reflexivity|].
  destruct (opensComment (c :: tail)) eqn:Ho; [|reflexivity].
  pose proof (consumeWhiteSpace_app [] (c :: tail) (Forall_nil _) Hw) as E.
  cbn [app length] in E. rewrite E in H.
  apply consumeComment_opens in Ho. lia.
Qed.

(** The white-space rule declines exactly on the empty text and on a text
    whose first byte is no white space and opens no comment: a sharp sign
    always opens a comment, a slash does when a slash or a star follows. *)
Theorem consumeWhiteSpace_zero (content : bytes) :
  consumeWhiteSpace content = 0
  <-> content = []
      \/ (headIs (find whiteSpace) content = false
          /\ opensComment content = false).
Proof.
  split.
  - intros H. right. now apply consumeWhiteSpace_taken.
  - intros [->|[Hw Ho]]; [reflexivity | now apply consumeWhiteSpace_declines].
Qed.

Lemma consumeWhiteSpace_zero_witness : consumeWhiteSpace (str "/x") = 0.
Proof.
  apply (proj2 (consumeWhiteSpace_zero (str "/x"))).
  right. split; reflexivity.
Defined.

(** ** Operators *)

Lemma matchTable_minus tail :
  matchTable matchToken ("-"%char :: tail)
  = if headIs (fun d => Ascii.eqb d "|") tail
    then Some (TokenType.PreCond, 2) else None.
Proof.
  destruct tail as [|d tail]; [reflexivity|].
  unfold matchToken, matchTable, substr0.
  cbn [str list_ascii_of_string length firstn bytes_eqb headIs
       Ascii.eqb Bool.eqb andb].
  destruct (Ascii.eqb d "|"); reflexivity.
Qed.

Lemma matchTable_bar tail :
  matchTable matchToken ("|"%char :: tail)
  = if headIs (fun d => Ascii.eqb d "-") tail
    then Some (TokenType.PostCond, 2) else None.
Proof.
  destruct tail as [|d tail]; [reflexivity|].
  unfold matchToken, matchTable, substr0.
  cbn [str list_ascii_of_string length firstn bytes_eqb headIs
       Ascii.eqb Bool.eqb andb].
  destruct (Ascii.eqb d "-"); reflexivity.
Qed.

Lemma headIs_app (p : ascii -> bool) (c : ascii) (run rest : bytes) :
  headIs p ((c :: run) ++ rest) = headIs p (c :: run).
Proof. reflexivity. Qed.

Lemma headIs_outside (chars : bytes) (p : ascii -> bool) rest :
  (forall d, p d = true -> find chars d = true) ->
  headIs (find chars) rest = false -> headIs p rest = false.
Proof.
  intros Hp H. destruct rest as [|d rest]; [reflexivity|]. cbn [headIs] in *.
  destruct (p d) eqn:E; [|reflexivity]. apply Hp in E. congruence.
Qed.

Lemma operator_first c :
  find operatorChar c = true ->
  find quotes c = false /\ find whiteSpace c = false
  /\ (find tokenStart c = true -> c = "-"%char \/ c = "|"%char).
Proof.
  intros H. apply find_In in H. unfold operatorChar, bslash in H.
  cbn [str list_ascii_of_string In app] in H.
  repeat (destruct H as [<-|H];
          [repeat split; try reflexivity; intros E;
           first [discriminate E | now left | now right]|]).
  contradiction.
Qed.

(** The table finds nothing at the head of a run of operator bytes that is
    followed by none, when it finds nothing in the run itself. *)
Lemma matchTable_operator run rest :
  run <> [] ->
  Forall (fun c => find operatorChar c = true) run ->
  headIs (find operatorChar) rest = false ->
  matchTable matchToken run = None ->
  matchTable matchToken (run ++ rest) = None.
Proof.
  intros Hne Hrun Hrest Htab. destruct run as [|c run]; [congruence|].
  apply Forall_inv in Hrun as Hc.
  destruct (operator_first c Hc) as (_ & _ & Hstart).
  destruct (find tokenStart c) eqn:Ht; [|now apply matchTable_first].
  destruct (Hstart eq_refl) as [->| ->]; cbn [app].
  - rewrite matchTable_minus in *. destruct run as [|d run]; cbn [app].
    + rewrite (headIs_outside operatorChar (fun d => Ascii.eqb d "|") rest);
        auto.
      intros d E. apply Ascii.eqb_eq in E. now subst d.
    + exact Htab.
  - rewrite matchTable_bar in *. destruct run as [|d run]; cbn [app].
    + rewrite (headIs_outside operatorChar (fun d => Ascii.eqb d "-") rest);
        auto.
      intros d E. apply Ascii.eqb_eq in E. now subst d.
    + exact Htab.
Qed.

Lemma opensComment_operator run rest :
  headIs (find operatorChar) rest = false ->
  opensComment run = false ->
  opensComment (run ++ rest) = false.
Proof.
  intros Hrest Hopen. rewrite opensComment_spec in *.
  destruct run as [|c run]; cbn [app].
  - destruct rest as [|d rest]; [reflexivity|]. cbn [headIs] in Hrest.
    apply orb_false_iff. split.
    + destruct (Ascii.eqb d "#") eqn:E; [|reflexivity].
      apply Ascii.eqb_eq in E. now subst d.
    + destruct (Ascii.eqb d "/") eqn:E; [|reflexivity].
      apply Ascii.eqb_eq in E. now subst d.
  - apply orb_false_iff in Hopen as [Hh Hs]. rewrite Hh. cbn [orb].
    destruct (Ascii.eqb c "/"); [|reflexivity]. cbn [andb] in *.
    destruct run as [|d run]; cbn [app]; [|exact Hs].
    apply (headIs_outside operatorChar); [|exact Hrest].
    intros d E. apply orb_true_iff in E as [E|E];
      apply Ascii.eqb_eq in E; now subst d.
Qed.

(** Operators.  When the scan is at a maximal run of operator bytes that
    starts with neither an entry of [matchToken] nor a comment, [lex]
    appends one [Operator] token that covers the run; what the run holds
    behind its start, be it the bytes of a pre- or postcondition mark or a
    sharp sign, stays within the token. *)
Theorem lex_operator_run (st : LexState) (pre run rest : bytes) :
  Context.content (ctx st) = pre ++ run ++ rest ->
  pos st = length pre ->
  run <> [] ->
  Forall (fun c => find operatorChar c = true) run ->
  headIs (find operatorChar) rest = false ->
  matchTable matchToken run = None ->
  opensComment run = false ->
  lex_body st
  = mkLex (pos st + length run)
          (toks st ++ [Token.mk TokenType.Operator
                         (Location.mk (pos st) (length run)
                            (Context.filename (ctx st)))])
          (ctx st).
Proof.
  intros Hcontent Hpos Hne Hrun Hrest Htab Hopen.
  apply lex_body_token; [|reflexivity].
  rewrite Hcontent, Hpos, skipn_pre.
  pose proof (matchTable_operator run rest Hne Hrun Hrest Htab) as Htab'.
  pose proof (opensComment_operator run rest Hrest Hopen) as Hopen'.
  pose proof (matchesFrom_run operatorChar run rest Hrun Hrest) as Hlen.
  rewrite <- Hlen.
  destruct run as [|c run]; [congruence|].
  apply Forall_inv in Hrun as Hc.
  destruct (operator_first c Hc) as (Hq & Hw & _).
  cbn [app] in *. apply chooseTok_operator.
  - exact Htab'.
  - now apply consumeStringLiteral_first.
  - now apply consumeWhiteSpace_declines.
  - rewrite Hlen. discriminate.
Qed.

Lemma lex_operator_run_witness :
  lex_body (mkLex 1 [] (Context.init (str "a+-|#b") "<filename>"))
  = mkLex 5 [tok TokenType.Operator 1 4]
          (Context.init (str "a+-|#b") "<filename>").
Proof.
  apply (lex_operator_run
           (mkLex 1 [] (Context.init (str "a+-|#b") "<filename>"))
           (str "a") (str "+-|#") (str "b")); try reflexivity.
  - discriminate.
  - repeat constructor.
Defined.

(** ** Block comments, closed or not *)

Lemma at_block (ws body tail : bytes) j :
  at_ (ws ++ str "/*" ++ body ++ tail) (length ws + 1 + j)
  = at_ (("*"%char :: body) ++ tail) j.
Proof.
  rewrite at_app.
  replace (length ws + 1 + j <? length ws) with false
    by (symmetry; apply Nat.ltb_ge; lia).
  replace (length ws + 1 + j - length ws) with (S j) by lia.
  reflexivity.
Qed.

(** The loop of a block comment that is not closed runs to the end. *)
Lemma block_scan_open (ws body : bytes) :
  hasClose "*" body = false ->
  scan (fun i =>
          Ascii.eqb (at_ (ws ++ str "/*" ++ body) i) "/"
          && Ascii.eqb (at_ (ws ++ str "/*" ++ body) (i - 1)) "*")
       (length (ws ++ str "/*" ++ body))
       (S (S (length ws)))
  = length (ws ++ str "/*" ++ body).
Proof.
  intros Hbody.
  assert (Hsize : length (ws ++ str "/*" ++ body) = length ws + 2 + length body)
    by (rewrite !length_app; simpl; lia).
  apply scan_first.
  - lia.
  - intros i Hi. rewrite Hsize in Hi.
    pose proof (at_block ws body [] (S (i - length ws - 2))) as H1.
    pose proof (at_block ws body [] (i - length ws - 2)) as H2.
    rewrite !app_nil_r in H1, H2.
    replace (length ws + 1 + S (i - length ws - 2)) with i in H1 by lia.
    replace (length ws + 1 + (i - length ws - 2)) with (i - 1) in H2 by lia.
    rewrite H1, H2.
    change (at_ ("*"%char :: body) (S (i - length ws - 2)))
      with (at_ body (i - length ws - 2)).
    apply hasClose_nth; [exact Hbody | lia].
  - lia.
Qed.

Lemma consumeComment_block_open (ws body : bytes) :
  hasClose "*" body = false ->
  consumeComment (ws ++ str "/*" ++ body) (length ws)
  = S (length (ws ++ str "/*" ++ body)).
Proof.
  intros Hbody. unfold consumeComment. rewrite at_here.
  change (at_ (str "/*" ++ body) 0) with "/"%char.
  assert (Hblock : blockComment (ws ++ str "/*" ++ body) "/" (length ws)
                   = S (length (ws ++ str "/*" ++ body))).
  { unfold blockComment. rewrite at_after.
    change (at_ (str "/*" ++ body) 1) with "*"%char.
    ltb_to true. cbn [Ascii.eqb Bool.eqb andb].
    now rewrite block_scan_open. }
  rewrite Hblock. unfold lineComment.
  ltb_to false. cbn [Ascii.eqb Bool.eqb andb orb]. reflexivity.
Qed.

Lemma white_or_slash_first ws (c : ascii) tail :
  Forall (fun c => find whiteSpace c = true) ws ->
  find tokenStart c = false -> find quotes c = false ->
  exists d rest,
    ws ++ c :: tail = d :: rest
    /\ find tokenStart d = false /\ find quotes d = false.
Proof.
  intros Hws Ht Hq. destruct ws as [|w ws].
  - exists c, tail. auto.
  - exists w, (ws ++ c :: tail). split; [reflexivity|].
    apply Forall_inv in Hws. now apply white_first.
Qed.

(** A block comment that is not closed.  When the scan is at white space
    followed by the opening of a block comment that has no end in the rest
    of the text, [lex] appends one [WhiteSpace] token whose length is the
    number of bytes left plus one, and the scan position becomes the length
    of the text plus one: the token ends one byte behind the text. *)
Theorem lex_block_comment_open (st : LexState) (pre ws body : bytes) :
  Context.content (ctx st) = pre ++ ws ++ str "/*" ++ body ->
  pos st = length pre ->
  Forall (fun c => find whiteSpace c = true) ws ->
  hasClose "*" body = false ->
  lex_body st
  = mkLex (S (length (Context.content (ctx st))))
          (toks st ++ [Token.mk TokenType.WhiteSpace
                         (Location.mk (pos st)
                            (S (length (ws ++ str "/*" ++ body)))
                            (Context.filename (ctx st)))])
          (ctx st).
Proof.
  intros Hcontent Hpos Hws Hbody.
  replace (S (length (Context.content (ctx st))))
    with (pos st + S (length (ws ++ str "/*" ++ body)))
    by (rewrite Hcontent, Hpos, !length_app; simpl; lia).
  apply lex_body_token; [|reflexivity].
  rewrite Hcontent, Hpos, skipn_pre.
  assert (Hlen : consumeWhiteSpace (ws ++ str "/*" ++ body)
                 = S (length (ws ++ str "/*" ++ body))).
  { rewrite consumeWhiteSpace_app; [|assumption|reflexivity].
    now apply consumeComment_block_open. }
  rewrite <- Hlen.
  destruct (white_or_slash_first ws "/" ("*"%char :: body) Hws eq_refl eq_refl)
    as (d & tail & Heq & Ht & Hq).
  change (ws ++ str "/*" ++ body) with (ws ++ "/"%char :: "*"%char :: body).
  apply chooseTok_whitespace.
  - rewrite Heq. now apply matchTable_first.
  - rewrite Heq. now apply consumeStringLiteral_first.
  - change (ws ++ "/"%char :: "*"%char :: body) with (ws ++ str "/*" ++ body).
    rewrite Hlen. discriminate.
Qed.

Lemma lex_block_comment_open_witness :
  lex_body (mkLex 1 [] (Context.init (str "a /* b *") "<filename>"))
  = mkLex 9 [tok TokenType.WhiteSpace 1 8]
          (Context.init (str "a /* b *") "<filename>").
Proof.
  apply (lex_block_comment_open
           (mkLex 1 [] (Context.init (str "a /* b *") "<filename>"))
           (str "a") (str " ") (str " b *")); try reflexivity.
  repeat constructor.
Defined.




(** ** The tokens of a run, as a whole *)

Lemma Chain_count N : forall p l e,
  Chain p l e ->
  Forall (fun t => 1 <= spanLength t /\ spanStart t < N) l ->
  length l <= N - p.
Proof.
  intros p l e H. induction H as [p|p t l e Hs Hc IH]; intros Hall;
    [simpl; lia|].
  apply Forall_inv in Hall as Ht. destruct Ht as [Hlen Hlt].
  apply Forall_inv_tail in Hall.
  specialize (IH Hall). simpl. lia.
Qed.

Lemma filter_split_length (f : Token.t -> bool) l :
  length (filter (fun t => negb (f t)) l) + length (filter f l) = length l.
Proof.
  induction l as [|t l IH]; [reflexivity|]. cbn [filter].
  destruct (f t); simpl; lia.
Qed.

(** What [lex] returns.  Every token is at least one byte long, starts
    inside the text, names the file of the context, and is of a kind other
    than [Error]; tokens and new messages together are at most as many as
    the bytes of the text; and the context changes only by its pass step,
    set to [Lex], and by the messages appended to its log. *)
Theorem lex_tokens_wellformed (c : Context.t) :
  exists toks new,
    lex c = Some (toks, addMsgs (Context.startStep c PassStep.Lex) new)
    /\ Forall (fun t => 1 <= spanLength t
                        /\ spanStart t < length (Context.content c)
                        /\ Location.file (Token.loc t) = Context.filename c
                        /\ isErrorTok t = false) toks
    /\ length toks + length new <= length (Context.content c).
Proof.
  destruct (lex_n_spans (length (Context.content c)) c (le_n _))
    as (spans & e & Hc & He & Hall & Hrun).
  fold (lex c) in Hrun.
  exists (filter isToken spans), (map unexpected (filter isErrorTok spans)).
  split; [exact Hrun|]. split.
  - apply Forall_forall. intros t Ht. apply filter_In in Ht as [Ht Htok].
    rewrite Forall_forall in Hall. specialize (Hall t Ht).
    pose proof (chosen_length _ _ _ Hall) as Hlen.
    destruct Hall as (Hlt & Hfile & _).
    repeat split; auto. unfold isToken in Htok.
    now apply negb_true_iff in Htok.
  - rewrite length_map. unfold isToken.
    rewrite (filter_split_length isErrorTok spans).
    pose proof (Chain_count (length (Context.content c)) 0 spans e Hc) as Hn.
    rewrite Nat.sub_0_r in Hn. apply Hn.
    eapply Forall_impl; [|exact Hall]. intros t Ht.
    split; [now apply (chosen_length _ _ _ Ht) | now destruct Ht].
Qed.

Lemma blockComment_le_S content cur loc :
  loc <= length content -> blockComment content cur loc <= S (length content).
Proof.
  intros Hloc. unfold blockComment.
  destruct (Ascii.eqb cur "/" && (loc + 1 <? length content)
            && Ascii.eqb (at_ content (loc + 1)) "*") eqn:Hcond; [|lia].
  apply andb_true_iff in Hcond as [Hcond _].
  apply andb_true_iff in Hcond as [_ Hlt]. apply Nat.ltb_lt in Hlt.
  pose proof (scan_le (fun i => Ascii.eqb (at_ content i) "/"
                                && Ascii.eqb (at_ content (i - 1)) "*")
                (length content) (S (S loc)) ltac:(lia)).
  lia.
Qed.

(** The white-space rule returns at most the size of the text plus one. *)
Lemma consumeWhiteSpace_le_S content :
  consumeWhiteSpace content <= S (length content).
Proof.
  rewrite consumeWhiteSpace_consumeComment. cbv zeta.
  set (loc := scan _ _ 0).
  assert (Hloc : loc <= length content) by (apply scan_le; lia).
  destruct (loc <? length content) eqn:Hlt; [|lia].
  apply Nat.ltb_lt in Hlt. unfold consumeComment.
  pose proof (blockComment_le_S content (at_ content loc) loc Hloc) as Hb.
  unfold lineComment.
  destruct (Ascii.eqb (at_ content loc) "/"
            && (blockComment content (at_ content loc) loc + 1
                <? length content)
            && Ascii.eqb (at_ content
                            (blockComment content (at_ content loc) loc + 1))
                         "/"
            || Ascii.eqb (at_ content loc) "#") eqn:Hcond; [|exact Hb].
  assert (Hstart : S (blockComment content (at_ content loc) loc)
                   <= length content).
  { apply orb_true_iff in Hcond as [Hcond|Hcond].
    - apply andb_true_iff in Hcond as [Hcond _].
      apply andb_true_iff in Hcond as [_ H]. apply Nat.ltb_lt in H. lia.
    - unfold blockComment. apply Ascii.eqb_eq in Hcond. rewrite Hcond.
      cbn [Ascii.eqb Bool.eqb andb]. lia. }
  pose proof (scan_le (fun i => Ascii.eqb (at_ content i) nl)
                (length content) _ Hstart).
  lia.
Qed.

Lemma Sorted_removelast N : forall l,
  Sorted follows l ->
  Forall (fun t => spanStart t < N) l ->
  Forall (fun t => spanEnd t <= N) (removelast l).
Proof.
  induction l as [|a l IH]; intros Hs Hall; [constructor|].
  destruct l as [|b l]; [constructor|].
  change (removelast (a :: b :: l)) with (a :: removelast (b :: l)).
  apply Sorted_inv in Hs as [Hs Hhd]. apply HdRel_inv in Hhd as [_ Hend].
  apply Forall_inv_tail in Hall as Htail.
  constructor; [|now apply IH].
  apply Forall_inv in Htail. lia.
Qed.

(** How far a token can reach.  A token of a kind other than [WhiteSpace]
    ends within the text, and so does every token but the last one; a
    [WhiteSpace] token ends at most one byte behind the text. *)
Theorem lex_tokens_bound (c : Context.t) :
  exists toks c',
    lex c = Some (toks, c')
    /\ Forall (fun t =>
                 spanEnd t
                 <= if TokenType.eqb (Token.type t) TokenType.WhiteSpace
                    then S (length (Context.content c))
                    else length (Context.content c)) toks
    /\ Forall (fun t => inBounds (Context.content c) t = true)
              (removelast toks).
Proof.
  destruct (lex_n_spans (length (Context.content c)) c (le_n _))
    as (spans & e & Hc & He & Hall & Hrun).
  fold (lex c) in Hrun.
  exists (filter isToken spans),
         (addMsgs (Context.startStep c PassStep.Lex)
                  (map unexpected (filter isErrorTok spans))).
  split; [exact Hrun|]. split.
  - apply Forall_forall. intros t Ht. apply filter_In in Ht as [Ht _].
    rewrite Forall_forall in Hall. destruct (Hall t Ht) as (Hlt & _ & Hch).
    assert (Hne : skipn (spanStart t) (Context.content c) <> []).
    { intros E. apply (f_equal (@length ascii)) in E.
      rewrite length_skipn in E. simpl in E. lia. }
    pose proof (length_skipn (spanStart t) (Context.content c)) as Hsk.
    unfold spanEnd.
    destruct (TokenType.eqb (Token.type t) TokenType.WhiteSpace) eqn:E.
    + pose proof (chooseTok_Choice (skipn (spanStart t) (Context.content c)))
        as Hchoice.
      rewrite Hch in Hchoice. cbn [fst snd] in Hchoice.
      destruct (Token.type t); try discriminate E.
      inversion Hchoice as [ty n H| |H1 H2 H3 H4| | | |].
      * apply matchToken_Some in H. lia.
      * pose proof (consumeWhiteSpace_le_S
                      (skipn (spanStart t) (Context.content c))).
        lia.
    + pose proof (chooseTok_le _ Hne) as Hle. rewrite Hch in Hle.
      cbn [fst snd] in Hle.
      assert (spanLength t
              <= length (skipn (spanStart t) (Context.content c))).
      { apply Hle. intros Hty. rewrite Hty in E. discriminate. }
      lia.
  - eapply Forall_impl.
    { intros t Ht. unfold inBounds. apply Nat.leb_le. exact Ht. }
    apply Sorted_removelast.
    + apply (Chain_sorted isToken 0 spans e Hc).
      eapply Forall_impl; [|exact Hall]. intros t Ht.
      now apply (chosen_length _ _ _ Ht).
    + apply Forall_forall. intros t Ht. apply filter_In in Ht as [Ht _].
      rewrite Forall_forall in Hall. now destruct (Hall t Ht).
Qed.

(** The hypothesis of [blocksClosed_tokensInBounds] on a text with two
    block comments. *)
Lemma blocksClosed_tokensInBounds_witness :
  tokensInBounds (Context.init (str "a /* b */ /*/ c") "<filename>") = true.
Proof.
  apply (blocksClosed_tokensInBounds
           (Context.init (str "a /* b */ /*/ c") "<filename>")).
  reflexivity.
Defined.

(** ** Plain text *)

Lemma plainByte_matched c : plainByte c = true -> unmatchedByte c = false.
Proof.
  destruct c as [[] [] [] [] [] [] [] []]; intros H;
    first [reflexivity | discriminate H].
Qed.

(** On plain text no span is of kind [Error]. *)
Lemma plain_no_error content file spans :
  forallb plainByte content = true ->
  Forall (chosen content file) spans ->
  filter isErrorTok spans = [].
Proof.
  intros Hplain Hall. induction spans as [|t spans IH]; [reflexivity|].
  apply Forall_inv in Hall as Ht. apply Forall_inv_tail in Hall as Htl.
  cbn [filter].
  destruct (chosen_Error _ _ _ Ht) as [Hno _].
  destruct Ht as (Hlt & _).
  rewrite (skipn_cons_at _ _ Hlt), noRuleMatches_first in Hno.
  rewrite forallb_forall in Hplain. unfold at_ in Hno.
  rewrite (plainByte_matched _ (Hplain _ (nth_In _ zero Hlt))) in Hno.
  rewrite Hno. now apply IH.
Qed.

(** Plain text lexes without a message.  On a text of printable ASCII
    characters, blanks, tabs, newlines and carriage returns, [lex] logs
    nothing: the context it returns is the one it was given, at the pass
    step [Lex]. *)
Theorem lex_plain_text (c : Context.t) :
  forallb plainByte (Context.content c) = true ->
  exists toks, lex c = Some (toks, Context.startStep c PassStep.Lex).
Proof.
  intros Hplain.
  destruct (lex_n_spans (length (Context.content c)) c (le_n _))
    as (spans & e & Hc & He & Hall & Hrun).
  fold (lex c) in Hrun. exists (filter isToken spans).
  rewrite Hrun, (plain_no_error _ _ _ Hplain Hall). cbn [map].
  now rewrite addMsgs_nil.
Qed.

Lemma lex_plain_text_witness :
  exists toks,
    lex (Context.init (str "f(x) = 'a' + 2 # sum") "<filename>")
    = Some (toks,
            Context.startStep
              (Context.init (str "f(x) = 'a' + 2 # sum") "<filename>")
              PassStep.Lex).
Proof.
  apply (lex_plain_text (Context.init (str "f(x) = 'a' + 2 # sum") "<filename>")).
  reflexivity.
Defined.

(** Plain text reaches the tree builder.  When [done()] does not hold on
    entry and the text is plain, [getTree] hands all the tokens of [lex]
    and a context with an unchanged log to the tree builder.  When [done()]
    does not hold behind the tree builder, [getTree] returns what the tree
    builder returns, a tree or none, and writes nothing; when it holds and
    the tree builder returned a tree, [getTree] returns them and writes the
    tree to the error stream; when it holds and the tree builder returned
    no tree, the empty optional is dereferenced and there is no defined
    result. *)
Theorem getTree_plain_text (Tree : Type)
    (ast : Tokens -> Context.t -> option Tree * Context.t)
    (c : Context.t) (cerr : list (Output Tree)) :
  Context.done c = false ->
  forallb plainByte (Context.content c) = true ->
  exists toks,
    lex c = Some (toks, Context.startStep c PassStep.Lex)
    /\ getTree ast c cerr
       = let r := ast toks (Context.startStep c PassStep.Lex) in
         if Context.done (snd r) then
           match fst r with
           | Some t => Some (fst r, snd r, cerr ++ [OutTree t])
           | None => None
           end
         else Some (fst r, snd r, cerr).
Proof.
  intros Hdone Hplain.
  destruct (lex_n_spans (length (Context.content c)) c (le_n _))
    as (spans & e & Hc & He & Hall & Hrun).
  fold (lex c) in Hrun.
  rewrite (plain_no_error _ _ _ Hplain Hall) in Hrun. cbn [map] in Hrun.
  rewrite addMsgs_nil in Hrun.
  exists (filter isToken spans). split; [exact Hrun|].
  unfold getTree. rewrite Hdone, Hrun.
  change (Context.done (Context.startStep c PassStep.Lex)) with (Context.done c).
  rewrite Hdone. cbv zeta.
  destruct (ast (filter isToken spans) (Context.startStep c PassStep.Lex))
    as [tree c2].
  reflexivity.
Qed.

Lemma getTree_plain_text_witness :
  (exists toks,
     lex (Context.init (str "x + 1") "<filename>")
     = Some (toks, Context.startStep (Context.init (str "x + 1") "<filename>")
                                     PassStep.Lex)
     /\ getTree leafAst (Context.init (str "x + 1") "<filename>") []
        = Some (Some tt,
                Context.startStep (Context.init (str "x + 1") "<filename>")
                                  PassStep.Parse,
                []))
  /\ (exists toks,
        lex (Context.init (str "f(x") "<filename>")
        = Some (toks, Context.startStep (Context.init (str "f(x") "<filename>")
                                        PassStep.Lex)
        /\ getTree errAst (Context.init (str "f(x") "<filename>") []
           = Some (Some tt,
                   snd (errAst toks
                          (Context.startStep
                             (Context.init (str "f(x") "<filename>")
                             PassStep.Lex)),
                   [OutTree tt])).
Proof.
  split.
  - destruct (getTree_plain_text unit leafAst
                (Context.init (str "x + 1") "<filename>") [] eq_refl eq_refl)
      as (toks & Hlex & Hget).
    exists toks. split; [exact Hlex | exact Hget].
  - destruct (getTree_plain_text unit errAst
                (Context.init (str "f(x") "<filename>") [] eq_refl eq_refl)
      as (toks & Hlex & Hget).
    exists toks. split; [exact Hlex | exact Hget].
Defined.

(** ** Lexing from a position *)

Lemma Chain_shift k : forall p l e,
  Chain p l e -> Chain (k + p) (map (shiftTok k) l) (k + e).
Proof.
  intros p l e H. induction H as [p|p t l e Hs Hc IH]; cbn [map].
  - constructor.
  - constructor.
    + unfold shiftTok, spanStart at 1. simpl. now rewrite Hs.
    + replace (k + p + spanLength (shiftTok k t)) with (k + (p + spanLength t))
        by (unfold shiftTok, spanLength; simpl; lia).
      exact IH.
Qed.

Lemma skipn_after (pre rest : bytes) s :
  skipn (length pre + s) (pre ++ rest) = skipn s rest.
Proof.
  replace (length pre + s) with (s + length pre) by lia.
  rewrite <- skipn_skipn. now rewrite skipn_pre.
Qed.

Lemma chosen_shift pre rest file t :
  chosen rest file t -> chosen (pre ++ rest) file (shiftTok (length pre) t).
Proof.
  intros (Hlt & Hfile & Hch). unfold chosen, shiftTok, spanStart, spanLength in *.
  simpl. rewrite length_app, skipn_after. repeat split; auto. lia.
Qed.

Lemma filter_shift (f : Token.t -> bool) k l :
  (forall t, f (shiftTok k t) = f t) ->
  filter f (map (shiftTok k) l) = map (shiftTok k) (filter f l).
Proof.
  intros Hf. induction l as [|t l IH]; [reflexivity|]. cbn [map filter].
  rewrite Hf. destruct (f t); cbn [map]; now rewrite IH.
Qed.

(** Lexing is local.  The tokens and messages [lex] makes from a scan
    position on are those it makes for the rest of the text alone, moved to
    that position: they do not depend on the text before the position. *)
Theorem lex_from_position (c : Context.t) (pre rest : bytes) (toks0 : Tokens) :
  Context.content c = pre ++ rest ->
  exists toks new,
    lex (Context.mk [] rest (Context.filename c) (Context.step c))
    = Some (toks, Context.mk new rest (Context.filename c) PassStep.Lex)
    /\ lex_loop (length rest) (mkLex (length pre) toks0 c)
       = Some (toks0 ++ map (shiftTok (length pre)) toks,
               addMsgs c (map (shiftMsg (length pre)) new)).
Proof.
  intros Hcontent.
  set (cr := Context.mk [] rest (Context.filename c) (Context.step c)).
  destruct (lex_n_spans (length rest) cr (le_n _))
    as (spans & e & Hc & He & Hall & Hrun).
  change (lex_n (length rest) cr) with (lex cr) in Hrun.
  cbn [Context.content Context.filename cr] in He, Hall.
  exists (filter isToken spans), (map unexpected (filter isErrorTok spans)).
  split; [exact Hrun|].
  destruct (lex_loop_spans (length rest) (mkLex (length pre) toks0 c))
    as (spans' & e' & Hc' & He' & Hall' & Hrun').
  { cbn [pos ctx]. rewrite Hcontent, length_app. lia. }
  cbn [pos ctx toks] in Hc', He', Hall', Hrun'.
  assert (Hsame : spans' = map (shiftTok (length pre)) spans).
  { apply (Chain_chosen_unique (Context.content c) (Context.filename c)
             spans' (length pre) e' Hc' He' Hall'
             (map (shiftTok (length pre)) spans) (length pre + e)).
    - replace (length pre) with (length pre + 0) at 1 by lia.
      now apply Chain_shift.
    - rewrite Hcontent, length_app. lia.
    - rewrite Hcontent. apply Forall_forall. intros t Ht.
      apply in_map_iff in Ht as (t0 & <- & Ht0).
      rewrite Forall_forall in Hall. apply chosen_shift. now apply Hall. }
  rewrite Hrun', Hsame.
  rewrite !filter_shift by reflexivity.
  rewrite !map_map. reflexivity.
Qed.

Lemma lex_from_position_witness :
  exists toks new,
    lex (Context.mk [] (str "b c") "<filename>" PassStep.Init)
    = Some (toks, Context.mk new (str "b c") "<filename>" PassStep.Lex)
    /\ lex_loop 3 (mkLex 2 [] (Context.init (str "a b c") "<filename>"))
       = Some (map (shiftTok 2) toks,
               addMsgs (Context.init (str "a b c") "<filename>")
                       (map (shiftMsg 2) new)).
Proof.
  apply (lex_from_position (Context.init (str "a b c") "<filename>")
           (str "a ") (str "b c") []).
  reflexivity.
Defined.

(** ** The output path of a target *)

Lemma findChar_spec c : forall s,
  match findChar c s with
  | None => find s c = false
  | Some p => p < length s /\ firstn p s ++ c :: skipn (S p) s = s
              /\ find (firstn p s) c = false
  end.
Proof.
  induction s as [|x s IH]; [reflexivity|]. cbn [findChar].
  destruct (Ascii.eqb x c) eqn:E.
  - apply Ascii.eqb_eq in E. subst x. simpl. repeat split; lia.
  - unfold find in *. cbn [existsb]. rewrite Ascii.eqb_sym, E. cbn [orb].
    destruct (findChar c s) as [p|]; cbn [option_map]; [|exact IH].
    destruct IH as (Hlt & Heq & Hno). cbn [firstn skipn length existsb].
    rewrite Ascii.eqb_sym, E. cbn [orb].
    repeat split; [lia | now rewrite <- Heq at 3 | exact Hno].
Qed.

Lemma findChar_first c pre post :
  find pre c = false -> findChar c (pre ++ c :: post) = Some (length pre).
Proof.
  induction pre as [|x pre IH]; intros H; cbn [app findChar length].
  - now rewrite Ascii.eqb_refl.
  - unfold find in H. cbn [existsb] in H.
    apply orb_false_iff in H as [Hx H].
    rewrite Ascii.eqb_sym, Hx. unfold find in IH. now rewrite (IH H).
Qed.

(** The output path.  The first percent sign of the template, and only
    that one, gives way to the file name: what stands before and behind it
    is kept, and a percent sign in the file name or later in the template
    stays as it is. *)
Theorem thisOut_template (pre post filename : bytes) :
  find pre "%" = false ->
  thisOut (pre ++ "%"%char :: post) filename = Some (pre ++ filename ++ post).
Proof.
  intros H. unfold thisOut. rewrite (findChar_first "%" pre post H).
  unfold string_replace.
  replace (length pre <=? length (pre ++ "%"%char :: post)) with true
    by (symmetry; apply Nat.leb_le; rewrite length_app; lia).
  rewrite firstn_app, firstn_all, Nat.sub_diag. cbn [firstn].
  rewrite app_nil_r.
  replace (length pre + 1) with (length (pre ++ [ "%"%char ]))
    by (rewrite length_app; reflexivity).
  replace (pre ++ "%"%char :: post) with ((pre ++ [ "%"%char ]) ++ post)
    by (now rewrite <- app_assoc).
  now rewrite skipn_pre.
Qed.

Lemma thisOut_template_witness :
  thisOut (str "%.o") (str "main.tako") = Some (str "main.tako.o").
Proof.
  apply (thisOut_template [] (str ".o") (str "main.tako")). reflexivity.
Defined.

(** A template without a percent sign.  The replacement throws
    [std::out_of_range] exactly when the template holds no percent sign,
    since the position it is given is then [npos]. *)
Theorem thisOut_no_percent (out filename : bytes) :
  thisOut out filename = None <-> find out "%" = false.
Proof.
  unfold thisOut. pose proof (findChar_spec "%" out) as H.
  destruct (findChar "%" out) as [p|]; cbn [string_replace].
  - destruct H as (Hlt & Heq & _).
    replace (p <=? length out) with true by (symmetry; apply Nat.leb_le; lia).
    split; [discriminate|]. intros Hno.
    assert (Hin : In "%"%char out).
    { rewrite <- Heq. apply in_or_app. right. now left. }
    apply find_In in Hin. congruence.
  - split; auto.
Qed.

Lemma thisOut_no_percent_witness : thisOut (str "a.out") (str "main.tako") = None.
Proof.
  apply (proj2 (thisOut_no_percent (str "a.out") (str "main.tako"))).
  reflexivity.
Defined.

(** ** The text of a token *)

Lemma at_firstn n (content : bytes) i :
  i < n -> at_ (firstn n content) i = at_ content i.
Proof.
  intros H. unfold at_. rewrite nth_firstn.
  now replace (i <? n) with true by (symmetry; apply Nat.ltb_lt; lia).
Qed.

(** A loop over a prefix of the text stops where the loop over the text
    does, or at the end of the prefix. *)
Lemma scan_prefix (stop stop' : nat -> bool) size n loc :
  n <= size -> loc <= n ->
  (forall i, i < n -> stop' i = stop i) ->
  scan stop' n loc = Nat.min n (scan stop size loc).
Proof.
  intros Hn Hloc Hagree.
  pose proof (scan_ge stop size loc) as Hge.
  destruct (le_lt_dec n (scan stop size loc)) as [Hle|Hlt].
  - rewrite Nat.min_l by lia. apply scan_first; [lia| |lia].
    intros i Hi. rewrite Hagree by lia.
    now apply (scan_before stop size loc i); lia.
  - rewrite Nat.min_r by lia. apply scan_first; [lia| |].
    + intros i Hi. rewrite Hagree by lia.
      now apply (scan_before stop size loc i).
    + intros _. rewrite Hagree by lia. apply scan_stop. lia.
Qed.

Lemma matchTable_firstn table content n :
  matchTable table content = None ->
  matchTable table (firstn n content) = None.
Proof.
  induction table as [|[tokS ty] table IH]; [reflexivity|]. cbn [matchTable].
  destruct (bytes_eqb (substr0 content (length tokS)) tokS) eqn:E;
    [discriminate|].
  intros H. rewrite (IH H).
  destruct (bytes_eqb (substr0 (firstn n content) (length tokS)) tokS)
    eqn:E'; [|reflexivity].
  apply bytes_eqb_eq in E'. unfold substr0 in *.
  rewrite firstn_firstn in E'.
  destruct (le_lt_dec (length tokS) n) as [Hle|Hlt].
  - rewrite Nat.min_l in E' by lia.
    apply bytes_eqb_eq in E'. congruence.
  - apply (f_equal (@length ascii)) in E'. rewrite length_firstn in E'. lia.
Qed.

Lemma consumeStringLiteral_zero content :
  consumeStringLiteral content = 0 <-> find quotes (at_ content 0) = false.
Proof.
  destruct content as [|c tail]; [split; reflexivity|].
  change (at_ (c :: tail) 0) with c. split.
  - intros H. destruct (find quotes c) eqn:E; [|reflexivity].
    now apply (consumeStringLiteral_quote c tail) in E.
  - apply consumeStringLiteral_first.
Qed.

Lemma matchesFrom_zero chars content :
  matchesFrom chars content = 0 <-> find chars (at_ content 0) = false \/ content = [].
Proof.
  destruct content as [|c tail]; [split; auto|].
  change (at_ (c :: tail) 0) with c. split.
  - intros H. left. destruct (find chars c) eqn:E; [|reflexivity].
    now apply (matchesFrom_pos chars c tail) in E.
  - intros [H|H]; [now apply matchesFrom_first | discriminate].
Qed.

Lemma consumeStringLiteral_firstn content :
  consumeStringLiteral (firstn (consumeStringLiteral content) content)
  = consumeStringLiteral content.
Proof.
  destruct (find quotes (at_ content 0)) eqn:Hq.
  2:{ apply consumeStringLiteral_zero in Hq. rewrite Hq. reflexivity. }
  destruct content as [|q tail]; [discriminate|].
  change (at_ (q :: tail) 0) with q in Hq.
  unfold consumeStringLiteral at 2 3. cbv zeta.
  change (at_ (q :: tail) 0) with q. rewrite Hq.
  set (stop := fun i => Ascii.eqb (at_ (q :: tail) i) q).
  set (r := scan stop (length (q :: tail)) 1).
  assert (Hr1 : 1 <= r) by apply scan_ge.
  assert (Hr2 : r <= length (q :: tail)) by (apply scan_le; simpl; lia).
  destruct (r <? length (q :: tail)) eqn:Hlt.
  - apply Nat.ltb_lt in Hlt.
    unfold consumeStringLiteral. cbv zeta.
    rewrite at_firstn by lia. change (at_ (q :: tail) 0) with q. rewrite Hq.
    rewrite length_firstn, Nat.min_l by lia.
    rewrite (scan_prefix stop _ (length (q :: tail)) (S r) 1) by
      (try lia; intros i Hi; unfold stop; now rewrite at_firstn by lia).
    fold r. rewrite Nat.min_r by lia.
    now replace (r <? S r) with true by (symmetry; apply Nat.ltb_lt; lia).
  - apply Nat.ltb_ge in Hlt. replace r with (length (q :: tail)) by lia.
    rewrite firstn_all. unfold consumeStringLiteral. cbv zeta.
    change (at_ (q :: tail) 0) with q. rewrite Hq. fold stop. fold r.
    replace (r <? length (q :: tail)) with false
      by (symmetry; apply Nat.ltb_ge; lia).
    lia.
Qed.

Lemma matchesFrom_firstn chars content :
  matchesFrom chars (firstn (matchesFrom chars content) content)
  = matchesFrom chars content.
Proof.
  pose proof (matchesFrom_le chars content) as Hle.
  pose proof (matchesFrom_prefix chars content) as Hall.
  pose proof (matchesFrom_run chars _ [] Hall eq_refl) as H.
  rewrite app_nil_r, length_firstn, Nat.min_l in H by exact Hle. exact H.
Qed.

Lemma blockComment_firstn content cur loc n :
  n <= length content -> loc < n ->
  blockComment content cur loc <= n ->
  blockComment (firstn n content) cur loc = blockComment content cur loc.
Proof.
  intros Hn Hloc. unfold blockComment.
  rewrite length_firstn, Nat.min_l by exact Hn.
  set (stop := fun i => Ascii.eqb (at_ content i) "/"
                        && Ascii.eqb (at_ content (i - 1)) "*").
  destruct (Ascii.eqb cur "/" && (loc + 1 <? length content)
            && Ascii.eqb (at_ content (loc + 1)) "*") eqn:Hcond.
  - intros Hle.
    pose proof (scan_ge stop (length content) (S (S loc))) as Hge.
    apply andb_true_iff in Hcond as [Hcond Hstar].
    apply andb_true_iff in Hcond as [Hslash _].
    rewrite at_firstn by lia. rewrite Hslash, Hstar.
    replace (loc + 1 <? n) with true by (symmetry; apply Nat.ltb_lt; lia).
    cbn [andb].
    rewrite (scan_prefix stop _ (length content) n (S (S loc))).
    + now rewrite Nat.min_r by lia.
    + exact Hn.
    + lia.
    + intros i Hi. unfold stop. rewrite !at_firstn by lia. reflexivity.
  - intros _. destruct (loc + 1 <? n) eqn:Hlt.
    + apply Nat.ltb_lt in Hlt. rewrite at_firstn by lia.
      replace (loc + 1 <? length content) with true in Hcond
        by (symmetry; apply Nat.ltb_lt; lia).
      now rewrite Hcond.
    + now rewrite andb_false_r.
Qed.

Lemma lineComment_firstn content cur loc n :
  n <= length content -> loc <= n ->
  lineComment content cur loc = n ->
  lineComment (firstn n content) cur loc = n.
Proof.
  intros Hn Hloc. unfold lineComment.
  rewrite length_firstn, Nat.min_l by exact Hn.
  set (stop := fun i => Ascii.eqb (at_ content i) nl).
  destruct (Ascii.eqb cur "/" && (loc + 1 <? length content)
            && Ascii.eqb (at_ content (loc + 1)) "/"
            || Ascii.eqb cur "#") eqn:Hcond.
  - intros Hscan.
    pose proof (scan_ge stop (length content) (S loc)) as Hge.
    assert (Hcond' : Ascii.eqb cur "/" && (loc + 1 <? n)
                     && Ascii.eqb (at_ (firstn n content) (loc + 1)) "/"
                     || Ascii.eqb cur "#" = true).
    { apply orb_true_iff in Hcond as [Hcond|Hcond];
        [|rewrite Hcond; apply orb_true_r].
      apply andb_true_iff in Hcond as [Hcond Hsl].
      apply andb_true_iff in Hcond as [Hcur Hlt]. apply Nat.ltb_lt in Hlt.
      assert (Hfar : loc + 1 < n).
      { destruct (Nat.eq_dec n (S loc)) as [E|]; [|lia].
        assert (Hs : stop (scan stop (length content) (S loc)) = true)
          by (apply scan_stop; lia).
        rewrite Hscan, E in Hs. unfold stop in Hs.
        replace (S loc) with (loc + 1) in Hs by lia.
        apply Ascii.eqb_eq in Hsl, Hs. rewrite Hsl in Hs. discriminate. }
      rewrite at_firstn by lia. rewrite Hcur, Hsl.
      now replace (loc + 1 <? n) with true by (symmetry; apply Nat.ltb_lt; lia). }
    rewrite Hcond'.
    rewrite (scan_prefix stop _ (length content) n (S loc)).
    + rewrite Hscan. apply Nat.min_id.
    + exact Hn.
    + lia.
    + intros i Hi. unfold stop. now rewrite at_firstn by lia.
  - intros ->. apply orb_false_iff in Hcond as [_ Hhash]. rewrite Hhash.
    replace (n + 1 <? n) with false by (symmetry; apply Nat.ltb_ge; lia).
    now rewrite andb_false_r.
Qed.

Lemma consumeWhiteSpace_firstn content :
  consumeWhiteSpace (firstn (consumeWhiteSpace content) content)
  = consumeWhiteSpace content.
Proof.
  set (n := consumeWhiteSpace content).
  destruct (le_lt_dec n (length content)) as [Hle|Hgt];
    [|now rewrite firstn_all2 by lia].
  pose proof (consumeWhiteSpace_consumeComment content) as Hn.
  fold n in Hn. cbv zeta in Hn.
  set (stop := fun i => negb (find whiteSpace (at_ content i))) in Hn.
  set (loc := scan stop (length content) 0) in Hn.
  assert (Hloc : loc <= n).
  { rewrite Hn. destruct (loc <? length content); [|lia].
    apply consumeComment_ge. }
  rewrite consumeWhiteSpace_consumeComment. cbv zeta.
  rewrite length_firstn, Nat.min_l by exact Hle.
  rewrite (scan_prefix stop _ (length content) n 0);
    [|exact Hle|lia|intros i Hi; unfold stop; now rewrite at_firstn by lia].
  fold loc. rewrite Nat.min_r by exact Hloc.
  destruct (loc <? n) eqn:Hlt; [|apply Nat.ltb_ge in Hlt; lia].
  apply Nat.ltb_lt in Hlt.
  replace (loc <? length content) with true in Hn
    by (symmetry; apply Nat.ltb_lt; lia).
  unfold consumeComment in *. rewrite at_firstn by exact Hlt.
  assert (Hb : blockComment content (at_ content loc) loc <= n).
  { rewrite Hn. apply lineComment_ge. }
  rewrite blockComment_firstn by assumption.
  apply lineComment_firstn; auto.
Qed.

Lemma headIs_firstn (p : ascii -> bool) (content : bytes) n :
  headIs p (firstn n content) = true -> headIs p content = true.
Proof. destruct n, content; simpl; auto; discriminate. Qed.

Lemma opensComment_firstn content n :
  opensComment content = false -> opensComment (firstn n content) = false.
Proof.
  rewrite !opensComment_spec. destruct content as [|c tail], n as [|n];
    try reflexivity.
  cbn [firstn]. intros H. apply orb_false_iff in H as [Hh Hs]. rewrite Hh.
  cbn [orb]. destruct (Ascii.eqb c "/"); [|reflexivity]. cbn [andb] in *.
  destruct (headIs _ (firstn n tail)) eqn:E; [|reflexivity].
  apply headIs_firstn in E. congruence.
Qed.

Lemma consumeWhiteSpace_zero_firstn content n :
  consumeWhiteSpace content = 0 -> consumeWhiteSpace (firstn n content) = 0.
Proof.
  intros H. apply consumeWhiteSpace_taken in H as [Hw Ho].
  apply consumeWhiteSpace_declines; [|now apply opensComment_firstn].
  destruct (headIs (find whiteSpace) (firstn n content)) eqn:E; [|reflexivity].
  apply headIs_firstn in E. congruence.
Qed.

Lemma consumeStringLiteral_zero_firstn content n :
  consumeStringLiteral content = 0 ->
  consumeStringLiteral (firstn n content) = 0.
Proof.
  intros H. apply consumeStringLiteral_zero in H.
  apply consumeStringLiteral_zero.
  destruct n as [|n]; [reflexivity|].
  destruct content as [|c tail]; [reflexivity | exact H].
Qed.

Lemma matchesFrom_zero_firstn chars content n :
  matchesFrom chars content = 0 ->
  matchesFrom chars (firstn n content) = 0.
Proof.
  intros H. apply matchesFrom_zero in H. apply matchesFrom_zero.
  destruct H as [H| ->]; [|right; apply firstn_nil].
  destruct n as [|n]; [now right|].
  destruct content as [|c tail]; [now right | now left].
Qed.

(** The span [chooseTok] takes, cut out of the text, is taken again by
    [chooseTok], with the same kind and the same length. *)
Lemma chooseTok_firstn content :
  chooseTok (firstn (snd (chooseTok content)) content) = chooseTok content.
Proof.
  destruct (chooseTok_Choice content)
    as [ty n H|Ht Hs|Ht Hs Hw|Ht Hs Hw Ho|Ht Hs Hw Ho Hn|Ht Hs Hw Ho Hn Hy|H].
  - assert (E : chooseTok content = (ty, n))
      by (unfold chooseTok; now rewrite H).
    rewrite E. cbn [snd].
    apply matchTable_Some in H as (tokS & Hin & -> & Hf).
    rewrite Hf. rewrite <- (app_nil_r tokS) at 1.
    now destruct (chooseTok_table tokS ty [] Hin).
  - rewrite (chooseTok_string content Ht Hs). cbn [snd].
    rewrite chooseTok_string.
    + now rewrite consumeStringLiteral_firstn.
    + now apply matchTable_firstn.
    + now rewrite consumeStringLiteral_firstn.
  - rewrite (chooseTok_whitespace content Ht Hs Hw). cbn [snd].
    rewrite chooseTok_whitespace.
    + now rewrite consumeWhiteSpace_firstn.
    + now apply matchTable_firstn.
    + now apply consumeStringLiteral_zero_firstn.
    + now rewrite consumeWhiteSpace_firstn.
  - rewrite (chooseTok_operator content Ht Hs Hw Ho). cbn [snd].
    rewrite chooseTok_operator.
    + now rewrite matchesFrom_firstn.
    + now apply matchTable_firstn.
    + now apply consumeStringLiteral_zero_firstn.
    + now apply consumeWhiteSpace_zero_firstn.
    + now rewrite matchesFrom_firstn.
  - rewrite (chooseTok_number content Ht Hs Hw Ho Hn). cbn [snd].
    rewrite chooseTok_number.
    + now rewrite matchesFrom_firstn.
    + now apply matchTable_firstn.
    + now apply consumeStringLiteral_zero_firstn.
    + now apply consumeWhiteSpace_zero_firstn.
    + now apply matchesFrom_zero_firstn.
    + now rewrite matchesFrom_firstn.
  - rewrite (chooseTok_symbol content Ht Hs Hw Ho Hn Hy). cbn [snd].
    rewrite chooseTok_symbol.
    + now rewrite matchesFrom_firstn.
    + now apply matchTable_firstn.
    + now apply consumeStringLiteral_zero_firstn.
    + now apply consumeWhiteSpace_zero_firstn.
    + now apply matchesFrom_zero_firstn.
    + now apply matchesFrom_zero_firstn.
    + now rewrite matchesFrom_firstn.
  - assert (E : forall x, noRuleMatches x = true ->
                          chooseTok x = (TokenType.Error, 1)).
    { intros x Hx. destruct (chooseTok_Error x) as [Hno Hone].
      rewrite Hx in Hno. specialize (Hone Hno).
      destruct (chooseTok x) as [ty m]. cbn [fst snd] in *. subst m.
      destruct ty; try discriminate Hno. reflexivity. }
    rewrite (E content H). cbn [snd].
    destruct content as [|c tail]; [reflexivity|].
    cbn [firstn]. apply E.
    rewrite noRuleMatches_first in *. exact H.
Qed.

(** The text of a token decides the token.  The slice of the text that a
    token covers, lexed on its own, gives a span of the kind and of the
    length of the token: the kind of a token does not depend on what
    follows it. *)
Theorem lex_token_text (c : Context.t) :
  exists toks c',
    lex c = Some (toks, c')
    /\ Forall (fun t =>
                 chooseTok (getString (Context.content c) t)
                 = (Token.type t, spanLength t)) toks.
Proof.
  destruct (lex_n_spans (length (Context.content c)) c (le_n _))
    as (spans & e & Hc & He & Hall & Hrun).
  fold (lex c) in Hrun.
  exists (filter isToken spans),
         (addMsgs (Context.startStep c PassStep.Lex)
                  (map unexpected (filter isErrorTok spans))).
  split; [exact Hrun|].
  apply Forall_forall. intros t Ht. apply filter_In in Ht as [Ht _].
  rewrite Forall_forall in Hall. destruct (Hall t Ht) as (_ & _ & Hch).
  unfold getString, substr.
  pose proof (chooseTok_firstn (skipn (spanStart t) (Context.content c))) as H.
  rewrite Hch in H. exact H.
Qed.
